(** * Model Control Protocol: the message store and the turn sequencer

    A shallow embedding of [mcp_implementation.py].  The Python class
    [ModelControlProtocol] keeps every exchange in a SQLite file with two
    tables, [messages] and [model_interactions]; its methods open a
    connection, run one or two SQL statements, and close it again.

    The embedding keeps that shape:
    - the two tables are lists of rows in rowid order, each with its
      AUTOINCREMENT counter; a table that was never created is [None];
    - the methods are written in a small state-and-exception monad [M] whose
      state is the content of the database file, and whose environment
      supplies what the program reads from outside: the wall clock behind
      [DEFAULT CURRENT_TIMESTAMP] and the success or failure of each
      storage operation;
    - a connection carries its open transaction, as the [sqlite3] module
      does: an INSERT opens one implicitly, [commit] publishes it, and a
      connection dropped by an exception discards it.

    Console output ([print]) is not modelled. *)

From Stdlib Require Import ZArith String List Bool Arith Lia.
From Stdlib Require Import Sorting.Sorted Sorting.Permutation.
Import ListNotations.

Open Scope string_scope.
Open Scope list_scope.

Infix "^^" := String.append (at level 60, right associativity).

(** ** The persisted layout *)

(** [CREATE TABLE messages]: a timestamp is the text
    ['YYYY-MM-DD HH:MM:SS'], whose order is the order of the seconds it
    denotes; it is kept as that number of seconds. *)
Module messages.
Record row : Type := Row {
  id : Z;
  model_id : string;
  message_type : string;
  message_content : string;
  timestamp : Z
}.
End messages.

(** [CREATE TABLE model_interactions]. *)
Module model_interactions.
Record row : Type := Row {
  interaction_id : Z;
  model1_id : string;
  model2_id : string;
  message_id : Z;
  timestamp : Z
}.
End model_interactions.

(** A table with an [INTEGER PRIMARY KEY AUTOINCREMENT] column: its rows in
    rowid order and its entry in [sqlite_sequence]. *)
Record table (R : Type) : Type := Table {
  rows : list R;
  sqlite_sequence : Z
}.
Arguments Table {R} _ _.
Arguments rows {R} _.
Arguments sqlite_sequence {R} _.

Record database : Type := Database {
  messages_tbl : option (table messages.row);
  model_interactions_tbl : option (table model_interactions.row)
}.

(** What [sqlite3.connect] finds at a path where no file exists yet. *)
Definition empty_file : database :=
  {| messages_tbl := None; model_interactions_tbl := None |}.

Definition table_rows {R} (t : option (table R)) : list R :=
  match t with Some t => rows t | None => [] end.

Definition table_seq {R} (t : option (table R)) : Z :=
  match t with Some t => sqlite_sequence t | None => 0%Z end.

(** ** SQL statements of the program *)

Inductive exn : Type :=
| OperationalError (msg : string)
| IndexError.

(** [CREATE TABLE [IF NOT EXISTS] name (...)]. *)
Definition create_table {R} (if_not_exists : bool) (name : string)
    (t : option (table R)) : exn + option (table R) :=
  match t with
  | None => inr (Some (Table [] 0%Z))
  | Some _ =>
      if if_not_exists then inr t
      else inl (OperationalError ("table " ^^ name ^^ " already exists"))
  end.

Definition create_messages (db : database) : exn + database :=
  match create_table true "messages" (messages_tbl db) with
  | inl e => inl e
  | inr t => inr {| messages_tbl := t;
                    model_interactions_tbl := model_interactions_tbl db |}
  end.

Definition create_model_interactions (db : database) : exn + database :=
  match create_table true "model_interactions" (model_interactions_tbl db) with
  | inl e => inl e
  | inr t => inr {| messages_tbl := messages_tbl db;
                    model_interactions_tbl := t |}
  end.

(** AUTOINCREMENT: one more than the largest rowid the table ever held. *)
Definition next_rowid {R} (rowid : R -> Z) (t : table R) : Z :=
  (Z.max (sqlite_sequence t) (fold_right Z.max 0 (map rowid (rows t))) + 1)%Z.

(** [INSERT INTO messages (model_id, message_type, message_content)
     VALUES (?, ?, ?)]; the result is [cursor.lastrowid]. *)
Definition insert_message (model_id message_type message_content : string)
    (now : Z) (db : database) : exn + database * Z :=
  match messages_tbl db with
  | None => inl (OperationalError "no such table: messages")
  | Some t =>
      let id := next_rowid messages.id t in
      let r := messages.Row id model_id message_type message_content now in
      inr ({| messages_tbl := Some (Table (rows t ++ [r]) id);
              model_interactions_tbl := model_interactions_tbl db |}, id)
  end.

(** [INSERT INTO model_interactions (model1_id, model2_id, message_id)
     VALUES (?, ?, ?)]. *)
Definition insert_interaction (model1_id model2_id : string) (message_id : Z)
    (now : Z) (db : database) : exn + database * Z :=
  match model_interactions_tbl db with
  | None => inl (OperationalError "no such table: model_interactions")
  | Some t =>
      let id := next_rowid model_interactions.interaction_id t in
      let r := model_interactions.Row id model1_id model2_id message_id now in
      inr ({| messages_tbl := messages_tbl db;
              model_interactions_tbl := Some (Table (rows t ++ [r]) id) |}, id)
  end.

(** [FROM messages m JOIN model_interactions mi ON m.id = mi.message_id
     WHERE p mi]: SQLite scans [mi] in rowid order and looks [m] up by its
     primary key. *)
Definition join_where (p : model_interactions.row -> bool)
    (ms : list messages.row) (mis : list model_interactions.row)
    : list (messages.row * model_interactions.row) :=
  flat_map
    (fun mi =>
       map (fun m => (m, mi))
           (filter (fun m => (messages.id m =? model_interactions.message_id mi)%Z) ms))
    (filter p mis).

(** [ORDER BY key ASC | DESC]: SQLite sorts the rows in the order the scan
    produced them and keeps that order among rows with equal keys. *)
Section OrderBy.
Context {R : Type} (key : R -> Z).

Fixpoint insert_asc (x : R) (l : list R) : list R :=
  match l with
  | [] => [x]
  | y :: l' => if (key x <=? key y)%Z then x :: l else y :: insert_asc x l'
  end.

Fixpoint insert_desc (x : R) (l : list R) : list R :=
  match l with
  | [] => [x]
  | y :: l' => if (key y <=? key x)%Z then x :: l else y :: insert_desc x l'
  end.

Definition order_by_asc (l : list R) : list R := fold_right insert_asc [] l.
Definition order_by_desc (l : list R) : list R := fold_right insert_desc [] l.
End OrderBy.

Definition limit {R} (n : nat) (l : list R) : list R := firstn n l.

Definition joined (db : database) (p : model_interactions.row -> bool)
    : exn + list (messages.row * model_interactions.row) :=
  match messages_tbl db, model_interactions_tbl db with
  | None, _ => inl (OperationalError "no such table: messages")
  | _, None => inl (OperationalError "no such table: model_interactions")
  | Some m, Some mi => inr (join_where p (rows m) (rows mi))
  end.

Definition select_content_sender (r : messages.row * model_interactions.row)
    : string * string :=
  (messages.message_content (fst r), messages.model_id (fst r)).

(** [SELECT m.message_content, m.model_id ...
     WHERE mi.message_id = ? AND mi.model2_id = ?]. *)
Definition select_by_id (message_id : Z) (model_id : string) (db : database)
    : exn + list (string * string) :=
  match joined db (fun mi =>
          (model_interactions.message_id mi =? message_id)%Z
          && String.eqb (model_interactions.model2_id mi) model_id) with
  | inl e => inl e
  | inr rs => inr (map select_content_sender rs)
  end.

(** [SELECT m.message_content, m.model_id ...
     WHERE mi.model2_id = ? ORDER BY m.timestamp DESC LIMIT 1]. *)
Definition select_latest (model_id : string) (db : database)
    : exn + list (string * string) :=
  match joined db (fun mi => String.eqb (model_interactions.model2_id mi) model_id) with
  | inl e => inl e
  | inr rs =>
      inr (map select_content_sender
             (limit 1 (order_by_desc (fun r => messages.timestamp (fst r)) rs)))
  end.

(** A row of the history: [m.id, m.model_id, mi.model2_id,
    m.message_content, m.timestamp]. *)
Definition history_row : Type := Z * string * string * string * Z.

Definition select_history (r : messages.row * model_interactions.row)
    : history_row :=
  (messages.id (fst r), messages.model_id (fst r),
   model_interactions.model2_id (snd r),
   messages.message_content (fst r), messages.timestamp (fst r)).

(** [SELECT m.id, m.model_id, mi.model2_id, m.message_content, m.timestamp
     ... ORDER BY m.timestamp ASC]. *)
Definition select_all (db : database) : exn + list history_row :=
  match joined db (fun _ => true) with
  | inl e => inl e
  | inr rs =>
      inr (map select_history
             (order_by_asc (fun r => messages.timestamp (fst r)) rs))
  end.

(** ** The effect monad *)

(** What the program reads from its surroundings: the wall clock, as the
    value [CURRENT_TIMESTAMP] takes at its k-th evaluation, and whether the
    k-th storage operation fails. *)
Record env : Type := Env {
  CURRENT_TIMESTAMP : nat -> Z;
  io_error : nat -> bool
}.

(** [disk] is the committed content of the file at [db_path]. *)
Record world : Type := World {
  disk : database;
  clock_reads : nat;
  io_ops : nat
}.

Inductive outcome (A : Type) : Type :=
| Returned (a : A) (w : world)
| Raised (e : exn) (w : world).
Arguments Returned {A} _ _.
Arguments Raised {A} _ _.

Definition final {A} (o : outcome A) : world :=
  match o with Returned _ w => w | Raised _ w => w end.

Definition M (A : Type) : Type := env -> world -> outcome A.

Definition ret {A} (a : A) : M A := fun _ w => Returned a w.

Definition bind {A B} (m : M A) (f : A -> M B) : M B :=
  fun e w =>
    match m e w with
    | Returned a w' => f a e w'
    | Raised x w' => Raised x w'
    end.

Definition raise {A} (x : exn) : M A := fun _ w => Raised x w.

Notation "x <- m ;; k" := (bind m (fun x => k))
  (at level 61, m at next level, right associativity).
Notation "' p <- m ;; k" := (bind m (fun x => let 'p := x in k))
  (at level 61, p pattern, m at next level, right associativity).
Notation "m ;; k" := (bind m (fun _ => k))
  (at level 61, right associativity).

Definition io_step : M unit :=
  fun e w =>
    let w' := {| disk := disk w; clock_reads := clock_reads w;
                 io_ops := S (io_ops w) |} in
    if io_error e (io_ops w)
    then Raised (OperationalError "disk I/O error") w'
    else Returned tt w'.

Definition read_clock : M Z :=
  fun e w =>
    Returned (CURRENT_TIMESTAMP e (clock_reads w))
             {| disk := disk w; clock_reads := S (clock_reads w);
                io_ops := io_ops w |}.

Definition get_disk : M database := fun _ w => Returned (disk w) w.

Definition put_disk (db : database) : M unit :=
  fun _ w =>
    Returned tt {| disk := db; clock_reads := clock_reads w; io_ops := io_ops w |}.

Definition lift_sql {A} (r : exn + A) : M A :=
  match r with inl x => raise x | inr a => ret a end.

(** ** The [sqlite3] connection *)

(** A connection is in autocommit mode ([None]) or inside a transaction
    that works on its own copy of the database. *)
Record connection : Type := Connection {
  transaction : option database
}.

Definition sqlite3_connect : M connection :=
  io_step ;; ret {| transaction := None |}.

Definition snapshot (conn : connection) : M database :=
  match transaction conn with
  | Some db => ret db
  | None => get_disk
  end.

(** [cursor.execute] of a CREATE TABLE: the module opens no transaction
    for it, so outside a transaction it is committed at once. *)
Definition execute_ddl (stmt : database -> exn + database)
    (conn : connection) : M connection :=
  io_step ;;
  db <- snapshot conn ;;
  db' <- lift_sql (stmt db) ;;
  match transaction conn with
  | None => put_disk db' ;; ret conn
  | Some _ => ret {| transaction := Some db' |}
  end.

(** [cursor.execute] of an INSERT: the module begins a transaction first
    when none is open; the statement evaluates [CURRENT_TIMESTAMP] once. *)
Definition execute_dml {A} (stmt : Z -> database -> exn + database * A)
    (conn : connection) : M (connection * A) :=
  io_step ;;
  db <- snapshot conn ;;
  now <- read_clock ;;
  '(db', a) <- lift_sql (stmt now db) ;;
  ret ({| transaction := Some db' |}, a).

(** [cursor.execute] of a SELECT; the result set stays with the cursor. *)
Definition execute_query {A} (q : database -> exn + list A)
    (conn : connection) : M (list A) :=
  io_step ;;
  db <- snapshot conn ;;
  lift_sql (q db).

Definition commit (conn : connection) : M connection :=
  io_step ;;
  match transaction conn with
  | Some db => put_disk db ;; ret {| transaction := None |}
  | None => ret conn
  end.

(** Closing discards whatever transaction is still open. *)
Definition close (conn : connection) : M unit := ret tt.

Definition fetchone {A} (result_set : list A) : option A := hd_error result_set.
Definition fetchall {A} (result_set : list A) : list A := result_set.

(** ** The class [ModelControlProtocol] *)

Record ModelControlProtocol : Type := Self {
  db_path : string;
  models : list string;
  current_model_index : Z
}.

(** Python truthiness of an optional string and of an optional integer. *)
Definition truthy_str (s : option string) : bool :=
  match s with
  | Some s => negb (String.eqb s "")
  | None => false
  end.

Definition truthy_int (n : option Z) : bool :=
  match n with
  | Some n => negb (n =? 0)%Z
  | None => false
  end.

Definition setup_database (self : ModelControlProtocol) : M unit :=
  conn <- sqlite3_connect ;;
  conn <- execute_ddl create_messages conn ;;
  conn <- execute_ddl create_model_interactions conn ;;
  conn <- commit conn ;;
  close conn.

Definition __init__ (db_path : string) : M ModelControlProtocol :=
  let self := {| db_path := db_path;
                 models := ["Claude"; "Gemini"; "ChatGPT"];
                 current_model_index := 0 |} in
  setup_database self ;;
  ret self.

Definition send_message (self : ModelControlProtocol)
    (sender_model receiver_model message_content message_type : string) : M Z :=
  conn <- sqlite3_connect ;;
  '(conn, message_id) <-
     execute_dml (insert_message sender_model message_type message_content) conn ;;
  '(conn, _) <-
     execute_dml (insert_interaction sender_model receiver_model message_id) conn ;;
  conn <- commit conn ;;
  close conn ;;
  ret message_id.

Definition receive_message (self : ModelControlProtocol)
    (model_id : string) (message_id : option Z) : M (option string) :=
  conn <- sqlite3_connect ;;
  result_set <-
    (if truthy_int message_id
     then execute_query
            (select_by_id (match message_id with Some n => n | None => 0%Z end)
                          model_id) conn
     else execute_query (select_latest model_id) conn) ;;
  let result := fetchone result_set in
  close conn ;;
  match result with
  | Some r => ret (Some (fst r))
  | None => ret None
  end.

(** [self.models[i]]. *)
Definition index (l : list string) (i : nat) : M string :=
  match nth_error l i with
  | Some x => ret x
  | None => raise IndexError
  end.

(** [time.sleep(0.5)]: the passing of time shows in the clock readings of
    the environment only. *)
Definition time_sleep : M unit := ret tt.

(** The body of the loop of [execute_turn] for one value of [i]. *)
Definition turn_step (self : ModelControlProtocol)
    (initial_message : option string) (i : nat) : M string :=
  sender_model <- index (models self) i ;;
  receiver_model <- index (models self) ((i + 1) mod (length (models self))) ;;
  response <-
    (if (i =? 0)%nat && truthy_str initial_message
     then ret ("INITIAL: "
               ^^ match initial_message with Some s => s | None => "" end)
     else
       received <- receive_message self sender_model None ;;
       if truthy_str received
       then ret ("RESPONSE from " ^^ sender_model ^^ ": I received '"
                 ^^ match received with Some s => s | None => "" end
                 ^^ "' and my response is...")
       else ret ("RESPONSE from " ^^ sender_model
                 ^^ ": No prior message received, starting conversation...")) ;;
  send_message self sender_model receiver_model response "text" ;;
  time_sleep ;;
  ret response.

Fixpoint turn_loop (self : ModelControlProtocol)
    (initial_message : option string) (range : list nat)
    (responses : list string) : M (list string) :=
  match range with
  | [] => ret responses
  | i :: range' =>
      response <- turn_step self initial_message i ;;
      turn_loop self initial_message range' (responses ++ [response])
  end.

Definition execute_turn (self : ModelControlProtocol)
    (initial_message : option string) : M (list string) :=
  turn_loop self initial_message (seq 0 (length (models self))) [].

Definition get_all_messages (self : ModelControlProtocol)
    : M (list history_row) :=
  conn <- sqlite3_connect ;;
  result_set <- execute_query select_all conn ;;
  let messages := fetchall result_set in
  close conn ;;
  ret messages.

(** Choice 4 of the command loop of [main], once confirmed:
    [os.remove(mcp.db_path)] and then [mcp.setup_database()]. *)
Definition os_remove : M unit := put_disk empty_file.

Definition clear_database (self : ModelControlProtocol) : M unit :=
  os_remove ;;
  setup_database self.

(** ** The command loop of [main] *)

(** [str.lower], on the letters A to Z; every other character of a
    confirmation is compared as it is. *)
Definition ascii_lower (c : Ascii.ascii) : Ascii.ascii :=
  let n := Ascii.nat_of_ascii c in
  if (65 <=? n)%nat && (n <=? 90)%nat then Ascii.ascii_of_nat (n + 32) else c.

Fixpoint str_lower (s : string) : string :=
  match s with
  | EmptyString => EmptyString
  | String c s' => String (ascii_lower c) (str_lower s')
  end.

(** How [main] ends: choice 5, or [input] finds the standard input
    exhausted and its [EOFError] ends the program. *)
Inductive main_exit : Type :=
| Goodbye
| EOFError.

(** The [while True] loop of [main]; [stdin] holds the lines that the calls
    of [input] will read, in order.  The object was constructed before the
    loop starts, so the file is there when choice 4 removes it. *)
Fixpoint main_loop (mcp : ModelControlProtocol) (stdin : list string)
    : M main_exit :=
  match stdin with
  | [] => ret EOFError
  | choice :: stdin =>
      if String.eqb choice "1" then
        match stdin with
        | [] => ret EOFError
        | initial_message :: stdin =>
            execute_turn mcp (Some initial_message) ;;
            main_loop mcp stdin
        end
      else if String.eqb choice "2" then
        execute_turn mcp None ;;
        main_loop mcp stdin
      else if String.eqb choice "3" then
        get_all_messages mcp ;;
        main_loop mcp stdin
      else if String.eqb choice "4" then
        match stdin with
        | [] => ret EOFError
        | confirm :: stdin =>
            (if String.eqb (str_lower confirm) "y"
             then clear_database mcp
             else ret tt) ;;
            main_loop mcp stdin
        end
      else if String.eqb choice "5" then ret Goodbye
      else main_loop mcp stdin
  end.

Definition main (stdin : list string) : M main_exit :=
  mcp <- __init__ "mcp_database.db" ;;
  main_loop mcp stdin.

(** ** The example script, [mcp_example_usage.py] *)

Definition simulate_model_interaction : M unit :=
  mcp <- __init__ "example_session.db" ;;
  let initial_query := "Compare the approaches to solving climate change" in
  execute_turn mcp (Some initial_query) ;;
  execute_turn mcp None ;;
  execute_turn mcp None ;;
  get_all_messages mcp ;;
  ret tt.

(** * Vocabulary of the properties *)

(** ** Environments *)

(** Two environments that give the same readings. *)
Definition env_eq (e e' : env) : Prop :=
  (forall k, CURRENT_TIMESTAMP e k = CURRENT_TIMESTAMP e' k)
  /\ (forall k, io_error e k = io_error e' k).

(** A computation that looks at its environment through the readings only. *)
Definition respects {A} (m : M A) : Prop :=
  forall e e' w, env_eq e e' -> m e w = m e' w.

(** An environment in which no storage operation fails, and the one with
    the same clock in which that holds by computation. *)
Definition no_io_error (e : env) : Prop := forall k, io_error e k = false.

Definition calm (e : env) : env :=
  {| CURRENT_TIMESTAMP := CURRENT_TIMESTAMP e; io_error := fun _ => false |}.

(** ** Databases *)

(** Both tables have been created. *)
Definition initialized (db : database) : Prop :=
  messages_tbl db <> None /\ model_interactions_tbl db <> None.

(** The database right after [setup_database] created both tables. *)
Definition fresh : database :=
  {| messages_tbl := Some (Table [] 0%Z);
     model_interactions_tbl := Some (Table [] 0%Z) |}.

(** [db'] has the rows and the AUTOINCREMENT counters of [db]; the two may
    differ in which empty tables exist. *)
Definition same_content (db db' : database) : Prop :=
  table_rows (messages_tbl db') = table_rows (messages_tbl db)
  /\ table_seq (messages_tbl db') = table_seq (messages_tbl db)
  /\ table_rows (model_interactions_tbl db') = table_rows (model_interactions_tbl db)
  /\ table_seq (model_interactions_tbl db') = table_seq (model_interactions_tbl db).

(** [db'] holds every row of [db], in place, and possibly more after them. *)
Definition extends (db db' : database) : Prop :=
  exists ms mis,
    table_rows (messages_tbl db') = table_rows (messages_tbl db) ++ ms
    /\ table_rows (model_interactions_tbl db')
       = table_rows (model_interactions_tbl db) ++ mis.

(** The two INSERT statements of [send_message], one after the other on the
    same database. *)
Definition both_inserts (sender receiver content mtype : string)
    (t_message t_interaction : Z) (db : database) : exn + database * Z :=
  match insert_message sender mtype content t_message db with
  | inl x => inl x
  | inr (db1, message_id) =>
      match insert_interaction sender receiver message_id t_interaction db1 with
      | inl x => inl x
      | inr (db2, _) => inr (db2, message_id)
      end
  end.

(** What the agent at position [i] answers, given the database it reads. *)
Definition response_for (db : database) (seed : option string) (i : nat)
    (sender : string) : string :=
  if (i =? 0)%nat && truthy_str seed
  then "INITIAL: " ^^ match seed with Some s => s | None => "" end
  else
    match select_latest sender db with
    | inr rs =>
        let received := option_map fst (fetchone rs) in
        if truthy_str received
        then "RESPONSE from " ^^ sender ^^ ": I received '"
             ^^ match received with Some s => s | None => "" end
             ^^ "' and my response is..."
        else "RESPONSE from " ^^ sender
             ^^ ": No prior message received, starting conversation..."
    | inl _ => ""
    end.

(** ** Reachable states *)

(** The public operations of the store and the sequencer, as a caller may
    chain them on one database file. *)
Inductive operation : Type :=
| Setup
| Send (sender receiver content mtype : string)
| Receive (model : string) (message_id : option Z)
| Turn (initial_message : option string)
| History
| Clear.

Definition run_operation (self : ModelControlProtocol) (op : operation) : M unit :=
  match op with
  | Setup => setup_database self
  | Send s r c ty => send_message self s r c ty ;; ret tt
  | Receive model mid => receive_message self model mid ;; ret tt
  | Turn seed => execute_turn self seed ;; ret tt
  | History => get_all_messages self ;; ret tt
  | Clear => clear_database self
  end.

(** The states a caller can bring the file to, starting with no file,
    whatever roster each call uses and whatever the environment does. *)
Inductive reachable : world -> Prop :=
| reachable_start reads ops :
    reachable {| disk := empty_file; clock_reads := reads; io_ops := ops |}
| reachable_step w self op e :
    reachable w -> reachable (final (run_operation self op e w)).

(** ** Invariants *)

(** A computation that keeps a property of the database file, whether it
    returns or raises. *)
Definition maintains (I : database -> Prop) {A} (m : M A) : Prop :=
  forall e w, I (disk w) -> I (disk (final (m e w))).

(** The hand-off [mi] points at the message [m]. *)
Definition references (mi : model_interactions.row) (m : messages.row) : bool :=
  (messages.id m =? model_interactions.message_id mi)%Z.

(** Every hand-off points at exactly one stored message, and no message has
    more than one hand-off pointing at it. *)
Definition handoff_invariant (db : database) : Prop :=
  let ms := table_rows (messages_tbl db) in
  let mis := table_rows (model_interactions_tbl db) in
  (forall mi, In mi mis -> length (filter (references mi) ms) = 1)
  /\ (forall m, In m ms ->
        length (filter (fun mi => references mi m) mis) <= 1).

(** The rowids 1, 2, ..., n. *)
Definition upto (n : nat) : list Z := map Z.of_nat (seq 1 n).
Arguments upto : simpl never.

(** Both tables number their rows 1, 2, 3, ... and the k-th hand-off
    refers to the k-th message. *)
Definition consistent (db : database) : Prop :=
  let ms := table_rows (messages_tbl db) in
  let mis := table_rows (model_interactions_tbl db) in
  map messages.id ms = upto (length ms)
  /\ table_seq (messages_tbl db) = Z.of_nat (length ms)
  /\ map model_interactions.interaction_id mis = upto (length mis)
  /\ table_seq (model_interactions_tbl db) = Z.of_nat (length mis)
  /\ map model_interactions.message_id mis = map messages.id ms.

(** ** Relays *)

(** The answers of [agents] in turn, the first to [prev] and each next one
    to the answer before it. *)
Fixpoint relay (prev : string) (agents : list string) : list string :=
  match agents with
  | [] => []
  | agent :: agents' =>
      let response :=
        "RESPONSE from " ^^ agent ^^ ": I received '" ^^ prev
        ^^ "' and my response is..." in
      response :: relay response agents'
  end.

(** A computation that takes reachable states to reachable states. *)
Definition stays_reachable {A} (m : M A) : Prop :=
  forall e w, reachable w -> reachable (final (m e w)).

(** ** Orders *)

(** Two orders on rows, by a sort key and then by a rank. *)
Section Orders.
Context {R : Type} (key rank : R -> Z).

(** Ascending by [key]; equal keys by ascending [rank]. *)
Definition ascending (a b : R) : Prop :=
  (key a < key b \/ (key a = key b /\ rank a < rank b))%Z.

(** Descending by [key]; equal keys by ascending [rank]. *)
Definition descending (a b : R) : Prop :=
  (key b < key a \/ (key a = key b /\ rank a < rank b))%Z.
End Orders.

(** The id and the timestamp of a row of the history. *)
Definition history_id (h : history_row) : Z := let '(id, _, _, _, _) := h in id.
Definition history_time (h : history_row) : Z := let '(_, _, _, _, t) := h in t.

(** ** Concrete rosters, environments and stores *)

Definition roster_abc : ModelControlProtocol :=
  {| db_path := "test.db"; models := ["A"; "B"; "C"]; current_model_index := 0 |}.

Definition roster_empty : ModelControlProtocol :=
  {| db_path := "test.db"; models := []; current_model_index := 0 |}.

(** A clock that advances one second every fourth reading, and storage that
    never fails. *)
Definition slow_clock : env :=
  {| CURRENT_TIMESTAMP := fun k => Z.of_nat (k / 4); io_error := fun _ => false |}.

(** Storage whose eighth operation fails. *)
Definition failing_commit : env :=
  {| CURRENT_TIMESTAMP := fun _ => 0%Z; io_error := fun k => Nat.eqb k 7 |}.

(** Storage whose tenth operation fails. *)
Definition failing_lookup : env :=
  {| CURRENT_TIMESTAMP := fun _ => 0%Z; io_error := fun k => Nat.eqb k 9 |}.

Definition no_file : world :=
  {| disk := empty_file; clock_reads := 0; io_ops := 0 |}.

Definition after_setup : world :=
  final (run_operation roster_abc Setup slow_clock no_file).

(** One message for "B", and then a second one within the same second. *)
Definition after_first_send : world :=
  final (run_operation roster_abc (Send "A" "B" "first" "text") slow_clock
           after_setup).

Definition after_two_sends : world :=
  final (run_operation roster_abc (Send "C" "B" "second" "text") slow_clock
           after_first_send).

(** The responses of the seeded turn of the roster A, B, C. *)
Definition seeded_0 : string := "INITIAL: hello".
Definition seeded_1 : string :=
  "RESPONSE from B: I received '" ^^ seeded_0 ^^ "' and my response is...".
Definition seeded_2 : string :=
  "RESPONSE from C: I received '" ^^ seeded_1 ^^ "' and my response is...".

(** The file after that turn on a fresh store, when the turn started at
    clock reading [n]. *)
Definition after_seeded_turn (e : env) (n : nat) : database :=
  let t := CURRENT_TIMESTAMP e in
  {| messages_tbl :=
       Some (Table
               [messages.Row 1 "A" "text" seeded_0 (t n);
                messages.Row 2 "B" "text" seeded_1 (t (2 + n));
                messages.Row 3 "C" "text" seeded_2 (t (4 + n))] 3%Z);
     model_interactions_tbl :=
       Some (Table
               [model_interactions.Row 1 "A" "B" 1 (t (1 + n));
                model_interactions.Row 2 "B" "C" 2 (t (3 + n));
                model_interactions.Row 3 "C" "A" 3 (t (5 + n))] 3%Z) |}.

(** * Properties *)

(** ** Runs depend on the environment through its readings only *)

Lemma respects_ret {A} (a : A) : respects (ret a).
Proof. intros e e' w _. reflexivity. Qed.

Lemma respects_raise {A} (x : exn) : respects (@raise A x).
Proof. intros e e' w _. reflexivity. Qed.

Lemma respects_bind {A B} (m : M A) (f : A -> M B) :
  respects m -> (forall a, respects (f a)) -> respects (bind m f).
Proof.
  intros Hm Hf e e' w He. unfold bind.
  rewrite (Hm e e' w He).
  destruct (m e' w); [apply Hf; assumption | reflexivity].
Qed.

Lemma respects_io_step : respects io_step.
Proof. intros e e' w [_ Hio]. unfold io_step. rewrite Hio. reflexivity. Qed.

Lemma respects_read_clock : respects read_clock.
Proof. intros e e' w [Hclk _]. unfold read_clock. rewrite Hclk. reflexivity. Qed.

Lemma respects_get_disk : respects get_disk.
Proof. intros e e' w _. reflexivity. Qed.

Lemma respects_put_disk db : respects (put_disk db).
Proof. intros e e' w _. reflexivity. Qed.

Lemma respects_lift_sql {A} (r : exn + A) : respects (lift_sql r).
Proof. intros e e' w _. destruct r; reflexivity. Qed.

Create HintDb respects.
#[export] Hint Resolve respects_ret respects_raise respects_io_step
  respects_read_clock respects_get_disk respects_put_disk
  respects_lift_sql : respects.

Ltac respects_tac :=
  repeat first
    [ progress auto with respects
    | apply respects_bind; [ | intros ]
    | match goal with
      | |- respects (let '(_, _) := ?x in _) => destruct x
      | |- respects (match ?x with _ => _ end) => destruct x
      | |- respects (if ?b then _ else _) => destruct b
      end ].

Lemma respects_sqlite3_connect : respects sqlite3_connect.
Proof. unfold sqlite3_connect. respects_tac. Qed.

Lemma respects_snapshot conn : respects (snapshot conn).
Proof. unfold snapshot. respects_tac. Qed.
#[export] Hint Resolve respects_sqlite3_connect respects_snapshot : respects.

Lemma respects_execute_ddl stmt conn : respects (execute_ddl stmt conn).
Proof. unfold execute_ddl. respects_tac. Qed.

Lemma respects_execute_dml {A} (stmt : Z -> database -> exn + database * A) conn :
  respects (execute_dml stmt conn).
Proof. unfold execute_dml. respects_tac. Qed.

Lemma respects_execute_query {A} (q : database -> exn + list A) conn :
  respects (execute_query q conn).
Proof. unfold execute_query. respects_tac. Qed.

Lemma respects_commit conn : respects (commit conn).
Proof. unfold commit. respects_tac. Qed.

Lemma respects_close conn : respects (close conn).
Proof. unfold close. respects_tac. Qed.
#[export] Hint Resolve respects_execute_ddl respects_execute_dml
  respects_execute_query respects_commit respects_close : respects.

Lemma respects_setup_database self : respects (setup_database self).
Proof. unfold setup_database. respects_tac. Qed.

Lemma respects_send_message self s r c ty : respects (send_message self s r c ty).
Proof. unfold send_message. respects_tac. Qed.

Lemma respects_receive_message self model mid :
  respects (receive_message self model mid).
Proof. unfold receive_message. respects_tac. Qed.

Lemma respects_index l i : respects (index l i).
Proof. unfold index. respects_tac. Qed.
#[export] Hint Resolve respects_setup_database respects_send_message
  respects_receive_message respects_index : respects.

Lemma respects_turn_step self seed i : respects (turn_step self seed i).
Proof. unfold turn_step, time_sleep. respects_tac. Qed.
#[export] Hint Resolve respects_turn_step : respects.

Lemma respects_turn_loop self seed range :
  forall responses, respects (turn_loop self seed range responses).
Proof.
  induction range as [|i range IH]; intros responses; cbn [turn_loop].
  - respects_tac.
  - apply respects_bind; [respects_tac | intros; apply IH].
Qed.

Lemma respects_execute_turn self seed : respects (execute_turn self seed).
Proof. unfold execute_turn. apply respects_turn_loop. Qed.

Lemma respects_get_all_messages self : respects (get_all_messages self).
Proof. unfold get_all_messages. respects_tac. Qed.

Lemma calm_eq e : no_io_error e -> env_eq e (calm e).
Proof. intros H. split; intros k; [reflexivity | apply H]. Qed.

Lemma no_io_error_calm e : no_io_error (calm e).
Proof. intros k. reflexivity. Qed.

(** ** What one call does to the database file *)

Ltac unfold_run :=
  unfold send_message, receive_message, setup_database, get_all_messages,
    sqlite3_connect, execute_ddl, execute_dml, execute_query, commit, close,
    snapshot, io_step, read_clock, get_disk, put_disk, lift_sql, bind, ret,
    raise in *;
  cbn in *.

(** Whatever the environment does, [send_message] either returns after both
    rows were committed together, or raises and leaves the file as it was. *)
Lemma send_message_atomic self s r c ty e w :
  match send_message self s r c ty e w with
  | Returned id w' =>
      both_inserts s r c ty (CURRENT_TIMESTAMP e (clock_reads w))
        (CURRENT_TIMESTAMP e (S (clock_reads w))) (disk w) = inr (disk w', id)
      /\ clock_reads w' = S (S (clock_reads w))
      /\ (forall k, io_ops w <= k < io_ops w' -> io_error e k = false)
      /\ io_ops w' = 4 + io_ops w
  | Raised _ w' => disk w' = disk w
  end.
Proof.
  unfold_run. unfold both_inserts, insert_message, insert_interaction.
  destruct (io_error e (io_ops w)) eqn:E0; cbn; [reflexivity|].
  destruct (io_error e (S (io_ops w))) eqn:E1; cbn; [reflexivity|].
  destruct (messages_tbl (disk w)) as [tm|]; cbn; [|reflexivity].
  destruct (io_error e (S (S (io_ops w)))) eqn:E2; cbn; [reflexivity|].
  destruct (model_interactions_tbl (disk w)) as [ti|]; cbn; [|reflexivity].
  destruct (io_error e (S (S (S (io_ops w))))) eqn:E3; cbn; [reflexivity|].
  repeat split; try reflexivity.
  intros k Hk.
  assert (k = io_ops w \/ k = S (io_ops w) \/ k = S (S (io_ops w))
          \/ k = S (S (S (io_ops w)))) as [->|[->|[->| ->]]] by lia;
    assumption.
Qed.

(** Without storage failures it is the two INSERTs and nothing else. *)
Lemma send_message_ok self s r c ty e w :
  no_io_error e ->
  send_message self s r c ty e w =
  match both_inserts s r c ty (CURRENT_TIMESTAMP e (clock_reads w))
          (CURRENT_TIMESTAMP e (S (clock_reads w))) (disk w) with
  | inr (db, id) =>
      Returned id {| disk := db; clock_reads := S (S (clock_reads w));
                     io_ops := 4 + io_ops w |}
  | inl x =>
      Raised x {| disk := disk w;
                  clock_reads := match messages_tbl (disk w) with
                                 | Some _ => S (S (clock_reads w))
                                 | None => S (clock_reads w)
                                 end;
                  io_ops := match messages_tbl (disk w) with
                            | Some _ => 3 + io_ops w
                            | None => 2 + io_ops w
                            end |}
  end.
Proof.
  intros H. rewrite (respects_send_message self s r c ty e (calm e) w (calm_eq e H)).
  unfold_run. unfold both_inserts, insert_message, insert_interaction.
  destruct (messages_tbl (disk w)) as [tm|]; cbn; [|reflexivity].
  destruct (model_interactions_tbl (disk w)) as [ti|]; cbn; reflexivity.
Qed.

(** The three readers never write. *)
Lemma receive_message_disk self model mid e w :
  disk (final (receive_message self model mid e w)) = disk w.
Proof.
  unfold_run.
  destruct (io_error e (io_ops w)); cbn; [reflexivity|].
  destruct (truthy_int mid); cbn;
    (destruct (io_error e (S (io_ops w))); cbn; [reflexivity|]).
  - destruct (select_by_id _ model (disk w)) as [x|rs]; cbn; [reflexivity|].
    destruct (fetchone rs); reflexivity.
  - destruct (select_latest model (disk w)) as [x|rs]; cbn; [reflexivity|].
    destruct (fetchone rs); reflexivity.
Qed.

Lemma get_all_messages_disk self e w :
  disk (final (get_all_messages self e w)) = disk w.
Proof.
  unfold_run.
  destruct (io_error e (io_ops w)); cbn; [reflexivity|].
  destruct (io_error e (S (io_ops w))); cbn; [reflexivity|].
  destruct (select_all (disk w)); reflexivity.
Qed.

Lemma receive_message_ok self model mid e w :
  no_io_error e ->
  receive_message self model mid e w =
  let w' := {| disk := disk w; clock_reads := clock_reads w;
               io_ops := 2 + io_ops w |} in
  match (if truthy_int mid
         then select_by_id (match mid with Some n => n | None => 0%Z end) model (disk w)
         else select_latest model (disk w)) with
  | inr rs => Returned (option_map fst (fetchone rs)) w'
  | inl x => Raised x w'
  end.
Proof.
  intros H.
  rewrite (respects_receive_message self model mid e (calm e) w (calm_eq e H)).
  unfold_run.
  destruct (truthy_int mid); cbn.
  - destruct (select_by_id _ model (disk w)) as [x|rs]; cbn; [reflexivity|].
    destruct (fetchone rs); reflexivity.
  - destruct (select_latest model (disk w)) as [x|rs]; cbn; [reflexivity|].
    destruct (fetchone rs); reflexivity.
Qed.

Lemma get_all_messages_ok self e w :
  no_io_error e ->
  get_all_messages self e w =
  let w' := {| disk := disk w; clock_reads := clock_reads w;
               io_ops := 2 + io_ops w |} in
  match select_all (disk w) with
  | inr rs => Returned rs w'
  | inl x => Raised x w'
  end.
Proof.
  intros H.
  rewrite (respects_get_all_messages self e (calm e) w (calm_eq e H)).
  unfold_run. destruct (select_all (disk w)); reflexivity.
Qed.

Lemma same_content_refl db : same_content db db.
Proof. repeat split. Qed.

(** [setup_database] may stop half way, but what it leaves never lacks a
    row that was there. *)
Lemma setup_database_content self e w :
  same_content (disk w) (disk (final (setup_database self e w))).
Proof.
  unfold_run. unfold create_messages, create_model_interactions, create_table.
  destruct w as [[tm ti] reads ops]; cbn.
  destruct tm as [tm|], ti as [ti|]; cbn;
    repeat match goal with
           | |- context [if io_error e ?k then _ else _] =>
               destruct (io_error e k); cbn
           end;
    repeat split.
Qed.

Lemma setup_database_ok self e w :
  no_io_error e ->
  exists db',
    setup_database self e w =
      Returned tt {| disk := db'; clock_reads := clock_reads w;
                     io_ops := 4 + io_ops w |}
    /\ initialized db'
    /\ same_content (disk w) db'
    /\ (initialized (disk w) -> db' = disk w).
Proof.
  intros H.
  rewrite (respects_setup_database self e (calm e) w (calm_eq e H)).
  unfold_run. unfold create_messages, create_model_interactions, create_table.
  destruct w as [[tm ti] reads ops]; cbn.
  destruct tm as [tm|], ti as [ti|]; cbn; eexists; (split; [reflexivity|]);
    unfold initialized, same_content; cbn;
    (repeat split; try congruence; try (intros [? ?]; congruence)).
Qed.

(** Constructing the object leaves a database with both tables, so every
    method called on an object finds them unless the file is removed. *)
Lemma init_initialized path e w :
  no_io_error e ->
  exists self w',
    __init__ path e w = Returned self w'
    /\ models self = ["Claude"; "Gemini"; "ChatGPT"]
    /\ initialized (disk w')
    /\ same_content (disk w) (disk w').
Proof.
  intros H. unfold __init__, bind.
  destruct (setup_database_ok
              {| db_path := path; models := ["Claude"; "Gemini"; "ChatGPT"];
                 current_model_index := 0 |} e w H)
    as (db' & E & Hi & Hs & _).
  rewrite E. eexists _, _. split; [reflexivity|]. cbn. auto.
Qed.

(** ** Invariants of the database file *)

Lemma maintains_ret I {A} (a : A) : maintains I (ret a).
Proof. intros e w H. exact H. Qed.

Lemma maintains_raise I {A} (x : exn) : maintains I (@raise A x).
Proof. intros e w H. exact H. Qed.

Lemma maintains_bind I {A B} (m : M A) (f : A -> M B) :
  maintains I m -> (forall a, maintains I (f a)) -> maintains I (bind m f).
Proof.
  intros Hm Hf e w H. unfold bind.
  specialize (Hm e w H).
  destruct (m e w) as [a w'|x w']; cbn in *; [apply Hf; assumption | assumption].
Qed.

Lemma maintains_readonly I {A} (m : M A) :
  (forall e w, disk (final (m e w)) = disk w) -> maintains I m.
Proof. intros Hm e w H. rewrite Hm. exact H. Qed.

Section Invariant.
Variable I : database -> Prop.
Hypothesis I_inserts :
  forall s r c ty t1 t2 db db' id,
    I db -> both_inserts s r c ty t1 t2 db = inr (db', id) -> I db'.
Hypothesis I_content : forall db db', same_content db db' -> I db -> I db'.
Hypothesis I_empty : I empty_file.

Lemma maintains_send_message self s r c ty :
  maintains I (send_message self s r c ty).
Proof.
  intros e w H. pose proof (send_message_atomic self s r c ty e w) as Hs.
  destruct (send_message self s r c ty e w) as [id w'|x w']; cbn.
  - destruct Hs as [Hs _]. eapply I_inserts; eassumption.
  - rewrite Hs. exact H.
Qed.

Lemma maintains_receive_message self model mid :
  maintains I (receive_message self model mid).
Proof. apply maintains_readonly. apply receive_message_disk. Qed.

Lemma maintains_get_all_messages self : maintains I (get_all_messages self).
Proof. apply maintains_readonly. apply get_all_messages_disk. Qed.

Lemma maintains_setup_database self : maintains I (setup_database self).
Proof.
  intros e w H. eapply I_content; [apply setup_database_content | exact H].
Qed.

Lemma maintains_index l i : maintains I (index l i).
Proof.
  unfold index. destruct (nth_error l i);
    [apply maintains_ret | apply maintains_raise].
Qed.

Lemma maintains_turn_step self seed i : maintains I (turn_step self seed i).
Proof.
  unfold turn_step, time_sleep.
  repeat first
    [ apply maintains_ret
    | apply maintains_index
    | apply maintains_send_message
    | apply maintains_receive_message
    | apply maintains_bind; [ | intros ]
    | match goal with
      | |- maintains _ (if ?b then _ else _) => destruct b
      end ].
Qed.

Lemma maintains_turn_loop self seed range :
  forall responses, maintains I (turn_loop self seed range responses).
Proof.
  induction range as [|i range IH]; intros responses; cbn [turn_loop].
  - apply maintains_ret.
  - apply maintains_bind; [apply maintains_turn_step | intros; apply IH].
Qed.

Lemma maintains_execute_turn self seed : maintains I (execute_turn self seed).
Proof. apply maintains_turn_loop. Qed.

Lemma maintains_clear_database self : maintains I (clear_database self).
Proof.
  intros e w _. unfold clear_database, os_remove, bind, put_disk.
  apply (maintains_setup_database self e). exact I_empty.
Qed.

Lemma maintains_run_operation self op : maintains I (run_operation self op).
Proof.
  destruct op; cbn [run_operation];
    try (apply maintains_bind; [ | intros; apply maintains_ret ]).
  - apply maintains_setup_database.
  - apply maintains_send_message.
  - apply maintains_receive_message.
  - apply maintains_execute_turn.
  - apply maintains_get_all_messages.
  - apply maintains_clear_database.
Qed.
End Invariant.

(** *** Fresh rowids *)

Lemma fold_max_ge l x : In x l -> (x <= fold_right Z.max 0 l)%Z.
Proof.
  induction l as [|y l IH]; cbn; [tauto|].
  intros [->|H]; [lia | specialize (IH H); lia].
Qed.

Lemma next_rowid_above {R} (rowid : R -> Z) (t : table R) r :
  In r (rows t) -> (rowid r < next_rowid rowid t)%Z.
Proof.
  intros H. unfold next_rowid.
  pose proof (fold_max_ge (map rowid (rows t)) (rowid r) (in_map rowid _ _ H)).
  lia.
Qed.

Lemma next_rowid_positive {R} (rowid : R -> Z) (t : table R) :
  (0 <= sqlite_sequence t)%Z -> (0 < next_rowid rowid t)%Z.
Proof. unfold next_rowid. lia. Qed.

Lemma both_inserts_inr s r c ty t1 t2 db db' id :
  both_inserts s r c ty t1 t2 db = inr (db', id) ->
  exists tm ti,
    messages_tbl db = Some tm
    /\ model_interactions_tbl db = Some ti
    /\ id = next_rowid messages.id tm
    /\ db' =
       {| messages_tbl :=
            Some (Table (rows tm ++ [messages.Row id s ty c t1]) id);
          model_interactions_tbl :=
            Some (Table
                    (rows ti ++
                     [model_interactions.Row
                        (next_rowid model_interactions.interaction_id ti)
                        s r id t2])
                    (next_rowid model_interactions.interaction_id ti)) |}.
Proof.
  unfold both_inserts, insert_message, insert_interaction.
  destruct (messages_tbl db) as [tm|]; [|discriminate]. cbn.
  destruct (model_interactions_tbl db) as [ti|]; [|discriminate].
  intros H. injection H as <- <-. exists tm, ti. repeat split.
Qed.

Lemma both_inserts_initialized s r c ty t1 t2 db :
  initialized db ->
  exists db' id, both_inserts s r c ty t1 t2 db = inr (db', id).
Proof.
  intros [Hm Hi].
  unfold both_inserts, insert_message, insert_interaction.
  destruct (messages_tbl db) as [tm|]; [|congruence]. cbn.
  destruct (model_interactions_tbl db) as [ti|]; [|congruence].
  eexists _, _. reflexivity.
Qed.

(** *** Every hand-off points at one message, every message has at most
        one hand-off *)

Lemma filter_none {A} (f : A -> bool) l :
  (forall x, In x l -> f x = false) -> filter f l = [].
Proof.
  induction l as [|y l IH]; cbn; [reflexivity|]. intros H.
  rewrite (H y (or_introl eq_refl)). apply IH. intros x Hx. apply H. now right.
Qed.

Lemma filter_one_In {A} (f : A -> bool) l :
  length (filter f l) = 1 -> exists x, In x l /\ f x = true.
Proof.
  intros H. destruct (filter f l) as [|x l'] eqn:E; [discriminate|].
  exists x. apply filter_In. rewrite E. now left.
Qed.

Lemma handoff_invariant_inserts s r c ty t1 t2 db db' id :
  handoff_invariant db ->
  both_inserts s r c ty t1 t2 db = inr (db', id) ->
  handoff_invariant db'.
Proof.
  intros [H1 H2] H.
  destruct (both_inserts_inr _ _ _ _ _ _ _ _ _ H) as (tm & ti & Hm & Hi & Hid & ->).
  unfold handoff_invariant in *. rewrite Hm, Hi in *. cbn in *.
  assert (Fm : forall m, In m (rows tm) -> (messages.id m =? id)%Z = false).
  { intros m Hin. apply Z.eqb_neq.
    pose proof (next_rowid_above messages.id tm m Hin). lia. }
  assert (Fi : forall mi, In mi (rows ti) ->
                 (id =? model_interactions.message_id mi)%Z = false).
  { intros mi Hin. destruct (filter_one_In _ _ (H1 mi Hin)) as (m & Hmin & Hr).
    unfold references in Hr. apply Z.eqb_eq in Hr. apply Z.eqb_neq.
    pose proof (next_rowid_above messages.id tm m Hmin). lia. }
  split.
  - intros mi Hin. rewrite filter_app, length_app. cbn.
    apply in_app_or in Hin. destruct Hin as [Hin|[<-|[]]].
    + unfold references at 2. cbn. rewrite (Fi mi Hin). cbn.
      rewrite (H1 mi Hin). reflexivity.
    + unfold references at 2. cbn. rewrite Z.eqb_refl. cbn.
      rewrite filter_none; [reflexivity|].
      intros m Hm'. unfold references. cbn. apply Fm, Hm'.
  - intros m Hin. rewrite filter_app, length_app. cbn.
    apply in_app_or in Hin. destruct Hin as [Hin|[<-|[]]].
    + unfold references at 2. cbn. rewrite (Fm m Hin). cbn.
      specialize (H2 m Hin). lia.
    + unfold references at 2. cbn. rewrite Z.eqb_refl. cbn.
      rewrite filter_none; [cbn; lia|].
      intros mi Hmi. unfold references. cbn. apply Fi, Hmi.
Qed.

Lemma handoff_invariant_content db db' :
  same_content db db' -> handoff_invariant db -> handoff_invariant db'.
Proof.
  intros (Hm & _ & Hi & _). unfold handoff_invariant. rewrite Hm, Hi. tauto.
Qed.

Lemma handoff_invariant_empty : handoff_invariant empty_file.
Proof. split; intros ? []. Qed.

(** *** Rowids count the rows *)

Lemma upto_S n : upto (S n) = upto n ++ [Z.of_nat (S n)].
Proof. unfold upto. rewrite seq_S, map_app. reflexivity. Qed.

Lemma upto_length n : length (upto n) = n.
Proof. unfold upto. rewrite length_map, length_seq. reflexivity. Qed.

Lemma in_upto n x : In x (upto n) -> (1 <= x <= Z.of_nat n)%Z.
Proof.
  unfold upto. rewrite in_map_iff. intros (k & <- & Hk).
  apply in_seq in Hk. lia.
Qed.

Lemma fold_max_le l b :
  (0 <= b)%Z -> (forall x, In x l -> (x <= b)%Z) ->
  (fold_right Z.max 0 l <= b)%Z.
Proof.
  intros Hb. induction l as [|y l IH]; cbn; intros H; [exact Hb|].
  pose proof (H y (or_introl eq_refl)).
  assert (fold_right Z.max 0 l <= b)%Z by (apply IH; intros; apply H; now right).
  lia.
Qed.

Lemma next_rowid_counted {R} (rowid : R -> Z) (t : table R) :
  map rowid (rows t) = upto (length (rows t)) ->
  sqlite_sequence t = Z.of_nat (length (rows t)) ->
  next_rowid rowid t = Z.of_nat (S (length (rows t))).
Proof.
  intros Hids Hseq. unfold next_rowid. rewrite Hids, Hseq.
  assert (fold_right Z.max 0 (upto (length (rows t)))
          <= Z.of_nat (length (rows t)))%Z.
  { apply fold_max_le; [lia|]. intros x Hx. apply in_upto in Hx. lia. }
  lia.
Qed.

Lemma consistent_inserts s r c ty t1 t2 db db' id :
  consistent db ->
  both_inserts s r c ty t1 t2 db = inr (db', id) ->
  consistent db'.
Proof.
  intros (Hm & Hms & Hi & His & Href) H.
  destruct (both_inserts_inr _ _ _ _ _ _ _ _ _ H) as (tm & ti & Em & Ei & Hid & ->).
  rewrite Em, Ei in *. cbn in *.
  pose proof (next_rowid_counted messages.id tm Hm Hms) as Nm.
  pose proof (next_rowid_counted model_interactions.interaction_id ti Hi His) as Ni.
  unfold consistent. cbn.
  rewrite !map_app, !length_app. cbn.
  rewrite !Nat.add_1_r, !upto_S, Hm, Hi, Href, Hm, Hid, Nm, Ni.
  repeat split; reflexivity.
Qed.

Lemma consistent_content db db' :
  same_content db db' -> consistent db -> consistent db'.
Proof.
  intros (Hm & Hms & Hi & His). unfold consistent.
  rewrite Hm, Hms, Hi, His. tauto.
Qed.

Lemma consistent_empty : consistent empty_file.
Proof. repeat split. Qed.

Lemma reachable_consistent w : reachable w -> consistent (disk w).
Proof.
  induction 1 as [reads ops|w self op e _ IH]; cbn.
  - apply consistent_empty.
  - apply (maintains_run_operation consistent consistent_inserts
             consistent_content consistent_empty); exact IH.
Qed.

(** ** The join and the two sorts *)

Lemma filter_unique {A} (g : A -> Z) l x :
  NoDup (map g l) -> In x l -> filter (fun y => (g y =? g x)%Z) l = [x].
Proof.
  induction l as [|y l IH]; cbn; [tauto|].
  intros Hnd Hin. inversion Hnd as [|? ? Hy Hnd']; subst.
  destruct Hin as [->|Hin].
  - rewrite Z.eqb_refl. f_equal. apply filter_none.
    intros z Hz. apply Z.eqb_neq. intros E. apply Hy. rewrite <- E.
    apply in_map, Hz.
  - destruct (Z.eqb_spec (g y) (g x)) as [E|_]; [|apply IH; assumption].
    exfalso. apply Hy. rewrite E. apply in_map, Hin.
Qed.

Lemma NoDup_map_eq {A} (g : A -> Z) l x y :
  NoDup (map g l) -> In x l -> In y l -> g x = g y -> x = y.
Proof.
  intros Hnd Hx Hy E.
  pose proof (filter_unique g l y Hnd Hy) as F.
  assert (In x (filter (fun z => (g z =? g y)%Z) l)) as Hin
      by (apply filter_In; split; [assumption | now apply Z.eqb_eq]).
  rewrite F in Hin. destruct Hin as [<-|[]]. reflexivity.
Qed.

Lemma filter_true {A} (l : list A) : filter (fun _ => true) l = l.
Proof. induction l; cbn; congruence. Qed.

Lemma upto_sorted n : StronglySorted Z.lt (upto n).
Proof.
  unfold upto. generalize 1 as a.
  induction n as [|n IH]; intros a; cbn; constructor; [apply IH|].
  apply Forall_forall. intros x Hx. apply in_map_iff in Hx.
  destruct Hx as (k & <- & Hk). apply in_seq in Hk. lia.
Qed.

Lemma upto_NoDup n : NoDup (upto n).
Proof.
  pose proof (upto_sorted n) as H.
  induction H as [|x l _ IH Hx]; constructor; [|exact IH].
  intros Hin. rewrite Forall_forall in Hx. specialize (Hx x Hin). lia.
Qed.

Lemma join_where_combine p ms0 :
  NoDup (map messages.id ms0) ->
  forall ms mis,
    incl ms ms0 ->
    map model_interactions.message_id mis = map messages.id ms ->
    flat_map
      (fun mi =>
         map (fun m => (m, mi))
           (filter (fun m => (messages.id m =? model_interactions.message_id mi)%Z)
                   ms0))
      (filter p mis)
    = filter (fun r => p (snd r)) (combine ms mis).
Proof.
  intros Hnd. induction ms as [|m ms IH]; intros [|mi mis] Hincl Hmap;
    cbn in *; try reflexivity; try discriminate.
  injection Hmap as Hid Hmap.
  assert (Hrest : incl ms ms0) by (intros x Hx; apply Hincl; now right).
  destruct (p mi); cbn; [|apply IH; assumption].
  rewrite Hid, (filter_unique messages.id ms0 m Hnd (Hincl m (or_introl eq_refl))).
  cbn. f_equal. apply IH; assumption.
Qed.

Lemma consistent_join p db tm ti :
  consistent db ->
  messages_tbl db = Some tm -> model_interactions_tbl db = Some ti ->
  join_where p (rows tm) (rows ti)
  = filter (fun r => p (snd r)) (combine (rows tm) (rows ti)).
Proof.
  intros (Hm & _ & _ & _ & Href) Em Ei. rewrite Em, Ei in *. cbn in *.
  unfold join_where. apply join_where_combine.
  - rewrite Hm. apply upto_NoDup.
  - apply incl_refl.
  - exact Href.
Qed.

Lemma map_fst_combine {A B} (l : list A) (l' : list B) :
  length l = length l' -> map fst (combine l l') = l.
Proof.
  revert l'. induction l as [|a l IH]; intros [|b l']; cbn;
    try reflexivity; try discriminate.
  intros H. f_equal. apply IH. lia.
Qed.

Lemma map_snd_combine {A B} (l : list A) (l' : list B) :
  length l = length l' -> map snd (combine l l') = l'.
Proof.
  revert l'. induction l as [|a l IH]; intros [|b l']; cbn;
    try reflexivity; try discriminate.
  intros H. f_equal. apply IH. lia.
Qed.

Lemma combine_app_same {A B} (l1 l2 : list A) (k1 k2 : list B) :
  length l1 = length k1 ->
  combine (l1 ++ l2) (k1 ++ k2) = combine l1 k1 ++ combine l2 k2.
Proof.
  revert k1. induction l1 as [|a l1 IH]; intros [|b k1]; cbn;
    try reflexivity; try discriminate.
  intros H. f_equal. apply IH. lia.
Qed.

Lemma consistent_lengths db :
  consistent db ->
  length (table_rows (model_interactions_tbl db))
  = length (table_rows (messages_tbl db)).
Proof.
  intros (_ & _ & _ & _ & Href).
  rewrite <- (length_map model_interactions.message_id), Href, length_map.
  reflexivity.
Qed.

Lemma StronglySorted_map_inv {A B} (f : A -> B) (R : B -> B -> Prop) l :
  StronglySorted R (map f l) -> StronglySorted (fun a b => R (f a) (f b)) l.
Proof.
  induction l as [|x l IH]; cbn; intros H; constructor;
    inversion H as [|? ? Hs Hf]; subst.
  - apply IH, Hs.
  - rewrite Forall_map in Hf. exact Hf.
Qed.

Lemma StronglySorted_map {A B} (f : A -> B) (R : B -> B -> Prop) l :
  StronglySorted (fun a b => R (f a) (f b)) l -> StronglySorted R (map f l).
Proof.
  induction 1 as [|x l _ IH Hf]; cbn; constructor; [exact IH|].
  rewrite Forall_map. exact Hf.
Qed.

Section Stable.
Context {R : Type} (key rank : R -> Z).

Lemma insert_asc_perm x l : Permutation (insert_asc key x l) (x :: l).
Proof.
  induction l as [|y l IH]; cbn; [reflexivity|].
  destruct (key x <=? key y)%Z; [reflexivity|].
  rewrite IH. apply perm_swap.
Qed.

Lemma insert_desc_perm x l : Permutation (insert_desc key x l) (x :: l).
Proof.
  induction l as [|y l IH]; cbn; [reflexivity|].
  destruct (key y <=? key x)%Z; [reflexivity|].
  rewrite IH. apply perm_swap.
Qed.

Lemma order_by_asc_perm l : Permutation (order_by_asc key l) l.
Proof.
  induction l as [|x l IH]; cbn; [reflexivity|].
  rewrite insert_asc_perm. now constructor.
Qed.

Lemma order_by_desc_perm l : Permutation (order_by_desc key l) l.
Proof.
  induction l as [|x l IH]; cbn; [reflexivity|].
  rewrite insert_desc_perm. now constructor.
Qed.

Lemma insert_asc_sorted x l :
  StronglySorted (ascending key rank) l ->
  Forall (fun y => (rank x < rank y)%Z) l ->
  StronglySorted (ascending key rank) (insert_asc key x l).
Proof.
  induction 1 as [|y l Hs IH Hy]; intros Hx; cbn.
  - repeat constructor.
  - inversion Hx as [|? ? Hxy Hxl]; subst.
    destruct (Z.leb_spec (key x) (key y)) as [Hle|Hgt].
    + constructor; [constructor; assumption|].
      constructor; [unfold ascending; lia|].
      rewrite Forall_forall in *. intros z Hz.
      specialize (Hy z Hz). specialize (Hxl z Hz). unfold ascending in *. lia.
    + constructor; [apply IH; assumption|].
      eapply Permutation_Forall; [symmetry; apply insert_asc_perm|].
      constructor; [unfold ascending; lia | exact Hy].
Qed.

Lemma insert_desc_sorted x l :
  StronglySorted (descending key rank) l ->
  Forall (fun y => (rank x < rank y)%Z) l ->
  StronglySorted (descending key rank) (insert_desc key x l).
Proof.
  induction 1 as [|y l Hs IH Hy]; intros Hx; cbn.
  - repeat constructor.
  - inversion Hx as [|? ? Hxy Hxl]; subst.
    destruct (Z.leb_spec (key y) (key x)) as [Hle|Hgt].
    + constructor; [constructor; assumption|].
      constructor; [unfold descending; lia|].
      rewrite Forall_forall in *. intros z Hz.
      specialize (Hy z Hz). specialize (Hxl z Hz). unfold descending in *. lia.
    + constructor; [apply IH; assumption|].
      eapply Permutation_Forall; [symmetry; apply insert_desc_perm|].
      constructor; [unfold descending; lia | exact Hy].
Qed.

(** Both sorts are stable: rows that came in ascending [rank] leave with
    equal keys still in ascending [rank]. *)
Lemma order_by_asc_sorted l :
  StronglySorted (fun a b => (rank a < rank b)%Z) l ->
  StronglySorted (ascending key rank) (order_by_asc key l).
Proof.
  induction 1 as [|x l _ IH Hx]; cbn; [constructor|].
  apply insert_asc_sorted; [exact IH|].
  eapply Permutation_Forall; [symmetry; apply order_by_asc_perm | exact Hx].
Qed.

Lemma order_by_desc_sorted l :
  StronglySorted (fun a b => (rank a < rank b)%Z) l ->
  StronglySorted (descending key rank) (order_by_desc key l).
Proof.
  induction 1 as [|x l _ IH Hx]; cbn; [constructor|].
  apply insert_desc_sorted; [exact IH|].
  eapply Permutation_Forall; [symmetry; apply order_by_desc_perm | exact Hx].
Qed.
End Stable.

Lemma in_combine_exists_l {A B} (l : list A) (l' : list B) b :
  length l = length l' -> In b l' -> exists a, In (a, b) (combine l l').
Proof.
  revert l'. induction l as [|a l IH]; intros [|b' l'] Hlen Hin; cbn in *;
    try tauto; try discriminate.
  destruct Hin as [->|Hin].
  - exists a. now left.
  - destruct (IH l' ltac:(lia) Hin) as (a' & Ha'). exists a'. now right.
Qed.

Lemma combine_map_eq {A B} (f : A -> Z) (g : B -> Z) l l' a b :
  map g l' = map f l -> In (a, b) (combine l l') -> g b = f a.
Proof.
  revert l'. induction l as [|a' l IH]; intros [|b' l'] Hmap Hin; cbn in *;
    try tauto; try discriminate.
  injection Hmap as Hhd Hmap.
  destruct Hin as [E|Hin]; [injection E as <- <-; exact Hhd | eauto].
Qed.

(** In a consistent database the join pairs the k-th message with the k-th
    hand-off, and with no other. *)
Lemma consistent_pairs db m mi :
  consistent db ->
  In m (table_rows (messages_tbl db)) ->
  In mi (table_rows (model_interactions_tbl db)) ->
  model_interactions.message_id mi = messages.id m ->
  In (m, mi) (combine (table_rows (messages_tbl db))
                      (table_rows (model_interactions_tbl db))).
Proof.
  intros Hc Hm Hmi E.
  pose proof (consistent_lengths db Hc) as Hlen.
  destruct Hc as (Hids & _ & _ & _ & Href).
  destruct (in_combine_exists_l _ _ mi (eq_sym Hlen) Hmi) as (m0 & Hin).
  pose proof (combine_map_eq _ _ _ _ _ _ Href Hin) as E0.
  assert (m0 = m) as ->; [|exact Hin].
  apply (NoDup_map_eq messages.id (table_rows (messages_tbl db))).
  - rewrite Hids. apply upto_NoDup.
  - eapply in_combine_l, Hin.
  - exact Hm.
  - congruence.
Qed.

Lemma initialized_tables db :
  initialized db ->
  exists tm ti, messages_tbl db = Some tm /\ model_interactions_tbl db = Some ti.
Proof.
  intros [Hm Hi].
  destruct (messages_tbl db) as [tm|]; [|congruence].
  destruct (model_interactions_tbl db) as [ti|]; [|congruence].
  eauto.
Qed.

(** ** The history *)

(** [select_all] on a consistent database: every stored exchange once, in
    ascending time, equal times in ascending id. *)
Lemma select_all_consistent db :
  initialized db -> consistent db ->
  exists history,
    select_all db = inr history
    /\ history =
       map select_history
         (order_by_asc (fun r => messages.timestamp (fst r))
            (combine (table_rows (messages_tbl db))
                     (table_rows (model_interactions_tbl db))))
    /\ StronglySorted (ascending history_time history_id) history.
Proof.
  intros Hi Hc. destruct (initialized_tables db Hi) as (tm & ti & Em & Ei).
  unfold select_all, joined. rewrite Em, Ei.
  rewrite (consistent_join _ db tm ti Hc Em Ei), filter_true.
  eexists. split; [reflexivity|]. split; [reflexivity|].
  apply StronglySorted_map.
  apply (order_by_asc_sorted (fun r => messages.timestamp (fst r))
           (fun r : messages.row * model_interactions.row => messages.id (fst r))).
  apply StronglySorted_map_inv
    with (f := fun r : messages.row * model_interactions.row =>
                messages.id (fst r))
         (R := Z.lt).
  pose proof (consistent_lengths db Hc) as Hlen.
  destruct Hc as (Hids & _). rewrite Em, Ei in *. cbn in *.
  rewrite <- (map_map fst messages.id), map_fst_combine, Hids by congruence.
  apply upto_sorted.
Qed.

(** ** Concrete stores used to exercise the theorems *)

Lemma reachable_after_setup : reachable after_setup.
Proof. unfold after_setup. apply reachable_step, reachable_start. Defined.

Lemma reachable_after_two_sends : reachable after_two_sends.
Proof.
  unfold after_two_sends, after_first_send. do 2 apply reachable_step.
  apply reachable_after_setup.
Defined.

Lemma initialized_after_setup : initialized (disk after_setup).
Proof. split; discriminate. Defined.

Lemma initialized_after_two_sends : initialized (disk after_two_sends).
Proof. split; discriminate. Defined.

Lemma no_io_error_slow_clock : no_io_error slow_clock.
Proof. intros k. reflexivity. Defined.

(** ** C3: the history is ordered *)

(** C3. In every state of the store that the public operations can reach,
    [get_all_messages] returns the full history: one row for each stored
    message with its hand-off, in non-decreasing timestamp order, rows with
    equal timestamps in strictly increasing message id. *)
Theorem get_all_messages_ordered self e w :
  no_io_error e -> reachable w -> initialized (disk w) ->
  exists history w',
    get_all_messages self e w = Returned history w'
    /\ disk w' = disk w
    /\ StronglySorted (ascending history_time history_id) history
    /\ length history = length (table_rows (messages_tbl (disk w)))
    /\ (forall m mi,
          In m (table_rows (messages_tbl (disk w))) ->
          In mi (table_rows (model_interactions_tbl (disk w))) ->
          model_interactions.message_id mi = messages.id m ->
          In (messages.id m, messages.model_id m,
              model_interactions.model2_id mi,
              messages.message_content m, messages.timestamp m) history).
Proof.
  intros Hio Hr Hi. pose proof (reachable_consistent w Hr) as Hc.
  destruct (select_all_consistent (disk w) Hi Hc) as (history & Hsel & Hh & Hs).
  rewrite (get_all_messages_ok self e w Hio), Hsel. cbn.
  eexists _, _. split; [reflexivity|]. cbn. split; [reflexivity|].
  split; [exact Hs|]. subst history. split.
  - rewrite length_map, (Permutation_length (order_by_asc_perm _ _)).
    rewrite length_combine, (consistent_lengths _ Hc). apply Nat.min_id.
  - intros m mi Hm Hmi E.
    change (In (select_history (m, mi))
              (map select_history
                 (order_by_asc (fun r => messages.timestamp (fst r))
                    (combine (table_rows (messages_tbl (disk w)))
                       (table_rows (model_interactions_tbl (disk w))))))).
    apply in_map.
    eapply Permutation_in; [symmetry; apply order_by_asc_perm|].
    apply consistent_pairs; assumption.
Qed.

Lemma get_all_messages_ordered_witness :
  exists history w',
    get_all_messages roster_abc slow_clock after_two_sends = Returned history w'
    /\ disk w' = disk after_two_sends
    /\ StronglySorted (ascending history_time history_id) history
    /\ length history = 2.
Proof.
  destruct (get_all_messages_ordered roster_abc slow_clock after_two_sends
              no_io_error_slow_clock reachable_after_two_sends
              initialized_after_two_sends)
    as (history & w' & H1 & H2 & H3 & H4 & _).
  exists history, w'. repeat split; assumption.
Defined.

(** ** C8: hand-offs and messages correspond one to one *)

(** C8. In every state reachable through the public operations each
    hand-off references exactly one stored message and each message is
    referenced by at most one hand-off; and every operation, whatever the
    environment does to it, takes a database with that property to a
    database with that property. *)
Theorem handoff_invariant_always :
  (forall w, reachable w -> handoff_invariant (disk w))
  /\ (forall self op e w,
        handoff_invariant (disk w) ->
        handoff_invariant (disk (final (run_operation self op e w)))).
Proof.
  assert (Hstep : forall self op e w,
             handoff_invariant (disk w) ->
             handoff_invariant (disk (final (run_operation self op e w)))).
  { intros self op. 
    exact (maintains_run_operation handoff_invariant handoff_invariant_inserts
             handoff_invariant_content handoff_invariant_empty self op). }
  split; [|exact Hstep].
  induction 1 as [reads ops|w self op e _ IH]; cbn.
  - apply handoff_invariant_empty.
  - apply Hstep, IH.
Qed.

Lemma handoff_invariant_always_witness :
  handoff_invariant (disk after_two_sends)
  /\ handoff_invariant
       (disk (final (run_operation roster_abc (Turn (Some "hello")) slow_clock
                       after_two_sends))).
Proof.
  pose proof (proj1 handoff_invariant_always after_two_sends
                reachable_after_two_sends) as H.
  split; [exact H|].
  exact (proj2 handoff_invariant_always roster_abc (Turn (Some "hello"))
           slow_clock after_two_sends H).
Defined.

(** ** C9: initialisation is idempotent *)

(** C9. [setup_database] never removes or alters a stored row, even when
    storage fails under it; without storage failures it returns, a second
    call returns as well and changes nothing, and on a database that
    already has both tables the first call changes nothing either. *)
Theorem setup_database_idempotent self :
  (forall e w, same_content (disk w) (disk (final (setup_database self e w))))
  /\ (forall e w,
        no_io_error e ->
        exists w1 w2,
          setup_database self e w = Returned tt w1
          /\ setup_database self e w1 = Returned tt w2
          /\ disk w2 = disk w1
          /\ initialized (disk w1)
          /\ (initialized (disk w) -> disk w1 = disk w)).
Proof.
  split; [intros e w; apply setup_database_content|].
  intros e w Hio.
  destruct (setup_database_ok self e w Hio) as (db1 & E1 & Hi1 & _ & Hsame1).
  destruct (setup_database_ok self e
              {| disk := db1; clock_reads := clock_reads w; io_ops := 4 + io_ops w |}
              Hio) as (db2 & E2 & _ & _ & Hsame2).
  eexists _, _. split; [exact E1|]. split; [exact E2|]. cbn in *.
  split; [apply Hsame2, Hi1|]. split; [exact Hi1 | exact Hsame1].
Qed.

Lemma setup_database_idempotent_witness :
  exists w1 w2,
    setup_database roster_abc slow_clock after_two_sends = Returned tt w1
    /\ setup_database roster_abc slow_clock w1 = Returned tt w2
    /\ disk w2 = disk w1
    /\ initialized (disk w1)
    /\ disk w1 = disk after_two_sends.
Proof.
  destruct (proj2 (setup_database_idempotent roster_abc) slow_clock
              after_two_sends no_io_error_slow_clock)
    as (w1 & w2 & H1 & H2 & H3 & H4 & H5).
  exists w1, w2. repeat split; try assumption.
  - apply H4.
  - apply H4.
  - apply H5, initialized_after_two_sends.
Defined.

(** ** C4: one message and one hand-off, together or not at all *)

(** The only exception [send_message] lets out is the one [sqlite3]
    raised: the disk I/O error of a failed storage operation, or, when a
    table is missing, the error of the statement that names it. *)
Lemma send_message_raises self s r c ty e w :
  match send_message self s r c ty e w with
  | Returned _ _ => True
  | Raised x _ =>
      (exists msg, x = OperationalError msg)
      /\ (initialized (disk w) -> x = OperationalError "disk I/O error")
  end.
Proof.
  unfold_run. unfold insert_message, insert_interaction.
  destruct (io_error e (io_ops w)); cbn; [split; eauto|].
  destruct (io_error e (S (io_ops w))); cbn; [split; eauto|].
  destruct (messages_tbl (disk w)) as [tm|] eqn:Em; cbn;
    [|split; [eauto | intros [H _]; congruence]].
  destruct (io_error e (S (S (io_ops w)))); cbn; [split; eauto|].
  destruct (model_interactions_tbl (disk w)) as [ti|] eqn:Ei; cbn;
    [|split; [eauto | intros [_ H]; congruence]].
  destruct (io_error e (S (S (S (io_ops w))))); cbn; [split; eauto|].
  exact Logic.I.
Qed.

(** C4. Whatever the environment does, a call of [send_message] either
    returns the id of one new message row, after that row and one hand-off
    row referencing it were committed together, or raises
    [sqlite3.OperationalError] and leaves the database file exactly as it
    was.  It raises whenever one of its four storage operations fails, with
    the disk I/O error of that operation when both tables exist, and
    returns when none fails and both tables exist. *)
Theorem send_message_all_or_nothing self s r c ty e w :
  match send_message self s r c ty e w with
  | Returned id w' =>
      exists tm ti m mi,
        messages_tbl (disk w) = Some tm
        /\ model_interactions_tbl (disk w) = Some ti
        /\ table_rows (messages_tbl (disk w')) = rows tm ++ [m]
        /\ table_rows (model_interactions_tbl (disk w')) = rows ti ++ [mi]
        /\ messages.id m = id
        /\ (forall m0, In m0 (rows tm) -> messages.id m0 <> id)
        /\ messages.model_id m = s
        /\ messages.message_type m = ty
        /\ messages.message_content m = c
        /\ model_interactions.model1_id mi = s
        /\ model_interactions.model2_id mi = r
        /\ model_interactions.message_id mi = id
  | Raised x w' =>
      disk w' = disk w /\ exists msg, x = OperationalError msg
  end
  /\ ((exists k, io_ops w <= k < 4 + io_ops w /\ io_error e k = true) ->
      exists msg w',
        send_message self s r c ty e w = Raised (OperationalError msg) w'
        /\ disk w' = disk w
        /\ (initialized (disk w) -> msg = "disk I/O error"))
  /\ (initialized (disk w) ->
      (forall k, io_ops w <= k < 4 + io_ops w -> io_error e k = false) ->
      exists id w', send_message self s r c ty e w = Returned id w').
Proof.
  pose proof (send_message_atomic self s r c ty e w) as H.
  pose proof (send_message_raises self s r c ty e w) as Hx.
  split; [|split].
  - destruct (send_message self s r c ty e w) as [id w'|x w'];
      [|split; [exact H | exact (proj1 Hx)]].
    destruct H as (H & _).
    destruct (both_inserts_inr _ _ _ _ _ _ _ _ _ H) as (tm & ti & Em & Ei & Hid & ->).
    eexists tm, ti, _, _. cbn. repeat split; try assumption.
    intros m0 Hm0. pose proof (next_rowid_above messages.id tm m0 Hm0). lia.
  - intros (k & Hk & Ek).
    destruct (send_message self s r c ty e w) as [id w'|x w'].
    + destruct H as (_ & _ & Hok & Hops). rewrite Hok in Ek by lia. discriminate.
    + destruct Hx as ((msg & ->) & Hmsg).
      exists msg, w'. split; [reflexivity|]. split; [exact H|].
      intros Hi. specialize (Hmsg Hi). congruence.
  - intros Hi Hok. destruct (initialized_tables _ Hi) as (tm & ti & Em & Ei).
    unfold_run. unfold insert_message, insert_interaction.
    rewrite (Hok (io_ops w)) by lia. cbn.
    rewrite (Hok (S (io_ops w))) by lia. cbn. rewrite Em. cbn.
    rewrite (Hok (S (S (io_ops w)))) by lia. cbn. rewrite Ei. cbn.
    rewrite (Hok (S (S (S (io_ops w))))) by lia. cbn.
    eexists _, _. reflexivity.
Qed.

Lemma send_message_all_or_nothing_witness :
  (exists id w',
      send_message roster_abc "A" "B" "hi" "text" slow_clock after_setup
      = Returned id w')
  /\ (exists w',
         send_message roster_abc "A" "B" "hi" "text" failing_commit after_setup
         = Raised (OperationalError "disk I/O error") w'
         /\ disk w' = disk after_setup).
Proof.
  split.
  - apply (proj2 (proj2 (send_message_all_or_nothing roster_abc "A" "B" "hi"
                           "text" slow_clock after_setup))).
    + exact initialized_after_setup.
    + intros k _. reflexivity.
  - destruct (proj1 (proj2 (send_message_all_or_nothing roster_abc "A" "B" "hi"
                              "text" failing_commit after_setup)))
      as (msg & w' & H1 & H2 & H3).
    + exists 7. split; [cbn; lia | reflexivity].
    + rewrite (H3 initialized_after_setup) in H1. exists w'. split; assumption.
Defined.

(** ** One step of a turn *)

Lemma select_latest_initialized model db :
  initialized db -> exists rs, select_latest model db = inr rs.
Proof.
  intros Hi. destruct (initialized_tables db Hi) as (tm & ti & Em & Ei).
  unfold select_latest, joined. rewrite Em, Ei. eauto.
Qed.

Lemma turn_step_ok self seed i e w sender receiver :
  no_io_error e ->
  initialized (disk w) ->
  nth_error (models self) i = Some sender ->
  nth_error (models self) ((i + 1) mod (length (models self))) = Some receiver ->
  exists id w',
    turn_step self seed i e w
    = Returned (response_for (disk w) seed i sender) w'
    /\ both_inserts sender receiver (response_for (disk w) seed i sender) "text"
         (CURRENT_TIMESTAMP e (clock_reads w))
         (CURRENT_TIMESTAMP e (S (clock_reads w))) (disk w)
       = inr (disk w', id)
    /\ clock_reads w' = S (S (clock_reads w)).
Proof.
  intros Hio Hi Hs Hr.
  unfold turn_step, index, time_sleep, response_for. rewrite Hs, Hr.
  unfold bind at 1 2 3. unfold ret at 1 2.
  destruct ((i =? 0)%nat && truthy_str seed).
  - unfold ret at 1. unfold bind. rewrite send_message_ok by assumption.
    destruct (both_inserts_initialized sender receiver
                ("INITIAL: " ^^ match seed with Some s => s | None => "" end)
                "text" (CURRENT_TIMESTAMP e (clock_reads w))
                (CURRENT_TIMESTAMP e (S (clock_reads w))) (disk w) Hi)
      as (db' & id & E).
    rewrite E. cbn. eexists _, _. repeat split.
  - unfold bind at 1. rewrite receive_message_ok by assumption. cbn.
    destruct (select_latest_initialized sender (disk w) Hi) as (rs & Ers).
    rewrite Ers.
    set (received := option_map fst (fetchone rs)).
    destruct (truthy_str received); unfold ret, bind;
      rewrite send_message_ok by assumption; cbn;
      match goal with
      | |- context [both_inserts ?a ?b ?c ?d ?t1 ?t2 (disk w)] =>
          destruct (both_inserts_initialized a b c d t1 t2 (disk w) Hi)
            as (db' & id & E)
      end;
      rewrite E; cbn; eexists _, _; repeat split.
Qed.

Lemma both_inserts_rows s r c ty t1 t2 db db' id :
  both_inserts s r c ty t1 t2 db = inr (db', id) ->
  exists m mi,
    table_rows (messages_tbl db') = table_rows (messages_tbl db) ++ [m]
    /\ table_rows (model_interactions_tbl db')
       = table_rows (model_interactions_tbl db) ++ [mi]
    /\ initialized db'
    /\ messages.id m = id
    /\ messages.model_id m = s
    /\ messages.message_content m = c
    /\ messages.timestamp m = t1
    /\ model_interactions.model1_id mi = s
    /\ model_interactions.model2_id mi = r
    /\ model_interactions.message_id mi = id.
Proof.
  intros H.
  destruct (both_inserts_inr _ _ _ _ _ _ _ _ _ H) as (tm & ti & Em & Ei & Hid & ->).
  rewrite Em, Ei. cbn. eexists _, _. repeat split; discriminate.
Qed.

(** ** The loop of [execute_turn] *)

Lemma turn_loop_extends self seed range :
  forall responses e w rs w',
    turn_loop self seed range responses e w = Returned rs w' ->
    exists rs', rs = responses ++ rs' /\ length rs' = length range.
Proof.
  induction range as [|i range IH]; intros responses e w rs w'; cbn [turn_loop].
  - unfold ret. intros H. injection H as <- _. exists []. now rewrite app_nil_r.
  - unfold bind. destruct (turn_step self seed i e w) as [r w1|]; [|discriminate].
    intros H. destruct (IH _ _ _ _ _ H) as (rs' & -> & Hlen).
    exists (r :: rs'). rewrite <- app_assoc. cbn. auto.
Qed.

Lemma turn_loop_ok self seed range :
  Forall (fun i => i < length (models self)) range ->
  forall responses e w,
    no_io_error e ->
    initialized (disk w) ->
    exists rs w' ms mis,
      turn_loop self seed range responses e w = Returned (responses ++ rs) w'
      /\ initialized (disk w')
      /\ table_rows (messages_tbl (disk w'))
         = table_rows (messages_tbl (disk w)) ++ ms
      /\ table_rows (model_interactions_tbl (disk w'))
         = table_rows (model_interactions_tbl (disk w)) ++ mis
      /\ map messages.message_content ms = rs
      /\ map (fun m => Some (messages.model_id m)) ms
         = map (nth_error (models self)) range
      /\ map (fun mi => Some (model_interactions.model1_id mi)) mis
         = map (nth_error (models self)) range
      /\ map (fun mi => Some (model_interactions.model2_id mi)) mis
         = map (fun i => nth_error (models self)
                           ((i + 1) mod (length (models self)))) range
      /\ map model_interactions.message_id mis = map messages.id ms.
Proof.
  induction 1 as [|i range Hi _ IH]; intros responses e w Hio Hinit;
    cbn [turn_loop].
  - exists [], w, [], []. rewrite !app_nil_r. repeat split; apply Hinit.
  - assert (Hr : (i + 1) mod (length (models self)) < length (models self))
      by (apply Nat.mod_upper_bound; lia).
    destruct (nth_error (models self) i) as [sender|] eqn:Es;
      [|apply nth_error_None in Es; lia].
    destruct (nth_error (models self) ((i + 1) mod (length (models self))))
      as [receiver|] eqn:Er; [|apply nth_error_None in Er; lia].
    destruct (turn_step_ok self seed i e w sender receiver Hio Hinit Es Er)
      as (id & w1 & Hstep & Hins & _).
    destruct (both_inserts_rows _ _ _ _ _ _ _ _ _ Hins)
      as (m & mi & Hm & Hmi & Hinit1 & Hid & Hsender & Hcontent & _
          & Hm1 & Hm2 & Href).
    destruct (IH (responses ++ [response_for (disk w) seed i sender]) e w1
                Hio Hinit1)
      as (rs & w' & ms & mis & Hrun & Hinit' & Hms & Hmis & Hc & Hs & H1 & H2 & H3).
    exists (response_for (disk w) seed i sender :: rs), w', (m :: ms), (mi :: mis).
    unfold bind. rewrite Hstep, Hrun, Hms, Hmis, Hm, Hmi, <- !app_assoc. cbn.
    rewrite Hc, Hs, H1, H2, H3, Hcontent, Hsender, Hm1, Hm2, Href, Hid, Es, Er.
    repeat split; apply Hinit'.
Qed.

Lemma map_nth_error_seq {A} (l : list A) :
  map (nth_error l) (seq 0 (length l)) = map Some l.
Proof.
  induction l as [|x l IH]; cbn; [reflexivity|].
  f_equal. rewrite <- seq_shift, map_map. exact IH.
Qed.

Lemma map_Some_inj {A B} (f : A -> B) l l' :
  map (fun x => Some (f x)) l = map Some l' -> map f l = l'.
Proof.
  revert l'. induction l as [|x l IH]; intros [|y l'] H; cbn in *;
    try reflexivity; try discriminate.
  injection H as -> H. f_equal. apply IH, H.
Qed.

Lemma nth_error_map_seq {A B} (f : A -> B) (g : nat -> option B) l n i :
  map (fun x => Some (f x)) l = map g (seq 0 n) ->
  i < n ->
  nth_error (map f l) i = g i.
Proof.
  intros H Hi.
  assert (E : nth_error (map (fun x => Some (f x)) l) i = Some (g i)).
  { rewrite H. rewrite nth_error_map.
    rewrite (nth_error_nth' (seq 0 n) 0) by (rewrite length_seq; exact Hi).
    rewrite seq_nth by exact Hi. reflexivity. }
  rewrite nth_error_map in *.
  destruct (nth_error l i); cbn in *; congruence.
Qed.

Lemma execute_turn_head self seed first rest e w :
  models self = first :: rest ->
  no_io_error e ->
  initialized (disk w) ->
  exists rs w' m ms,
    execute_turn self seed e w
    = Returned (response_for (disk w) seed 0 first :: rs) w'
    /\ table_rows (messages_tbl (disk w'))
       = table_rows (messages_tbl (disk w)) ++ m :: ms
    /\ messages.model_id m = first
    /\ messages.message_content m = response_for (disk w) seed 0 first.
Proof.
  intros Hmodels Hio Hinit. unfold execute_turn. rewrite Hmodels.
  cbn [length seq turn_loop].
  assert (Hr : (0 + 1) mod (length (models self)) < length (models self))
    by (apply Nat.mod_upper_bound; rewrite Hmodels; cbn; lia).
  destruct (nth_error (models self) ((0 + 1) mod (length (models self))))
    as [receiver|] eqn:Er; [|apply nth_error_None in Er; lia].
  assert (Es : nth_error (models self) 0 = Some first) by now rewrite Hmodels.
  destruct (turn_step_ok self seed 0 e w first receiver Hio Hinit Es Er)
    as (id & w1 & Hstep & Hins & _).
  destruct (both_inserts_rows _ _ _ _ _ _ _ _ _ Hins)
    as (m & mi & Hm & _ & Hinit1 & _ & Hsender & Hcontent & _).
  assert (Hrange : Forall (fun i => i < length (models self)) (seq 1 (length rest))).
  { apply Forall_forall. intros i Hi. apply in_seq in Hi.
    rewrite Hmodels. cbn. lia. }
  destruct (turn_loop_ok self seed (seq 1 (length rest)) Hrange
              ([] ++ [response_for (disk w) seed 0 first]) e w1 Hio Hinit1)
    as (rs & w' & ms & _ & Hrun & _ & Hms & _).
  exists rs, w', m, ms. unfold bind. rewrite Hstep, Hrun, Hms, Hm.
  repeat split; try assumption. now rewrite <- app_assoc.
Qed.

(** ** C1: one response per roster position *)

(** C1. On an empty roster [execute_turn] returns the empty list and leaves
    the world untouched.  On any roster, when storage does not fail and
    both tables exist, it returns exactly one response per roster entry;
    the i-th response is the content of the i-th message it appended, whose
    sender is the i-th roster entry and whose hand-off goes to the entry at
    position (i+1) mod N. *)
Theorem execute_turn_one_response_per_agent self seed :
  (models self = [] ->
   forall e w, execute_turn self seed e w = Returned [] w)
  /\ (forall e w,
        no_io_error e ->
        initialized (disk w) ->
        exists responses w' ms mis,
          execute_turn self seed e w = Returned responses w'
          /\ length responses = length (models self)
          /\ table_rows (messages_tbl (disk w'))
             = table_rows (messages_tbl (disk w)) ++ ms
          /\ table_rows (model_interactions_tbl (disk w'))
             = table_rows (model_interactions_tbl (disk w)) ++ mis
          /\ map messages.message_content ms = responses
          /\ map messages.model_id ms = models self
          /\ map model_interactions.model1_id mis = models self
          /\ (forall i, i < length (models self) ->
                nth_error (map model_interactions.model2_id mis) i
                = nth_error (models self) ((i + 1) mod (length (models self))))
          /\ map model_interactions.message_id mis = map messages.id ms).
Proof.
  split.
  - intros Hempty e w. unfold execute_turn. rewrite Hempty. reflexivity.
  - intros e w Hio Hinit.
    assert (Hrange : Forall (fun i => i < length (models self))
                       (seq 0 (length (models self)))).
    { apply Forall_forall. intros i Hi. apply in_seq in Hi. lia. }
    destruct (turn_loop_ok self seed _ Hrange [] e w Hio Hinit)
      as (rs & w' & ms & mis & Hrun & _ & Hms & Hmis & Hc & Hs & H1 & H2 & H3).
    rewrite map_nth_error_seq in Hs, H1.
    apply map_Some_inj in Hs. apply map_Some_inj in H1.
    exists rs, w', ms, mis. cbn in Hrun.
    repeat split; try assumption.
    + rewrite <- Hc, length_map, <- Hs, length_map. reflexivity.
    + intros i Hi.
      exact (nth_error_map_seq model_interactions.model2_id
               (fun i => nth_error (models self)
                           ((i + 1) mod (length (models self))))
               mis (length (models self)) i H2 Hi).
Qed.

Lemma execute_turn_one_response_per_agent_witness :
  execute_turn roster_empty (Some "hello") slow_clock after_setup
  = Returned [] after_setup
  /\ exists responses w',
       execute_turn roster_abc (Some "hello") slow_clock after_setup
       = Returned responses w'
       /\ length responses = 3.
Proof.
  split.
  - apply (proj1 (execute_turn_one_response_per_agent roster_empty
                    (Some "hello"))).
    reflexivity.
  - destruct (proj2 (execute_turn_one_response_per_agent roster_abc (Some "hello"))
                slow_clock after_setup no_io_error_slow_clock
                initialized_after_setup)
      as (responses & w' & ms & mis & H1 & H2 & _).
    exists responses, w'. split; assumption.
Defined.

(** ** C5: the seeded turn on a fresh store *)

Lemma seeded_turn_abc e w :
  no_io_error e ->
  disk w = fresh ->
  execute_turn roster_abc (Some "hello") e w
  = Returned [seeded_0; seeded_1; seeded_2]
      {| disk := after_seeded_turn e (clock_reads w);
         clock_reads := 6 + clock_reads w;
         io_ops := 16 + io_ops w |}.
Proof.
  intros Hio Hw.
  rewrite (respects_execute_turn roster_abc (Some "hello") e (calm e) w
             (calm_eq e Hio)).
  destruct w as [db reads ops]. cbn in Hw. subst db. reflexivity.
Qed.

(** C5. On a fresh store the roster A, B, C with seed "hello" answers with
    the seeded wrapper, then B's answer to what A sent it, then C's answer
    to what B sent it; afterwards the store holds exactly three messages
    and three hand-offs, A to B, B to C and C to A. *)
Theorem seeded_turn_scenario e w :
  no_io_error e ->
  disk w = fresh ->
  exists w',
    execute_turn roster_abc (Some "hello") e w
    = Returned
        ["INITIAL: hello";
         "RESPONSE from B: I received 'INITIAL: hello' and my response is...";
         "RESPONSE from C: I received 'RESPONSE from B: I received 'INITIAL: hello' and my response is...' and my response is..."]
        w'
    /\ map (fun m => (messages.id m, messages.model_id m,
                      messages.message_content m))
         (table_rows (messages_tbl (disk w')))
       = [(1%Z, "A", seeded_0); (2%Z, "B", seeded_1); (3%Z, "C", seeded_2)]
    /\ map (fun mi => (model_interactions.model1_id mi,
                       model_interactions.model2_id mi,
                       model_interactions.message_id mi))
         (table_rows (model_interactions_tbl (disk w')))
       = [("A", "B", 1%Z); ("B", "C", 2%Z); ("C", "A", 3%Z)].
Proof.
  intros Hio Hw. rewrite (seeded_turn_abc e w Hio Hw).
  eexists. split; [reflexivity|]. split; reflexivity.
Qed.

Lemma disk_after_setup : disk after_setup = fresh.
Proof. reflexivity. Defined.

Lemma seeded_turn_scenario_witness :
  exists w',
    execute_turn roster_abc (Some "hello") slow_clock after_setup
    = Returned [seeded_0; seeded_1; seeded_2] w'
    /\ length (table_rows (messages_tbl (disk w'))) = 3
    /\ length (table_rows (model_interactions_tbl (disk w'))) = 3.
Proof.
  destruct (seeded_turn_scenario slow_clock after_setup no_io_error_slow_clock
              disk_after_setup) as (w' & H1 & H2 & H3).
  exists w'. split; [exact H1|].
  rewrite <- (length_map (fun m => (messages.id m, messages.model_id m,
                                    messages.message_content m))), H2.
  rewrite <- (length_map (fun mi => (model_interactions.model1_id mi,
                                     model_interactions.model2_id mi,
                                     model_interactions.message_id mi))), H3.
  split; reflexivity.
Defined.

(** ** C6: every turn starts at the first roster entry *)

(** C6. Every call of [execute_turn] starts with the first roster entry,
    whatever earlier turns did: the first message it appends is sent by
    that entry and its content is the first response.  In the unseeded turn
    that follows the seeded turn of A, B, C on a fresh store, that first
    response quotes the message C sent to A in the first turn, which is
    what [receive_message] finds as the latest message for A. *)
Theorem turn_restarts_at_first_agent :
  (forall self seed first rest e w,
      models self = first :: rest ->
      no_io_error e ->
      initialized (disk w) ->
      exists response responses w' m ms,
        execute_turn self seed e w = Returned (response :: responses) w'
        /\ table_rows (messages_tbl (disk w'))
           = table_rows (messages_tbl (disk w)) ++ m :: ms
        /\ messages.model_id m = first
        /\ messages.message_content m = response)
  /\ (forall e w,
        no_io_error e ->
        disk w = fresh ->
        exists rs1 w1 from_c w1' rs2 w2,
          execute_turn roster_abc (Some "hello") e w = Returned rs1 w1
          /\ nth_error rs1 2 = Some from_c
          /\ receive_message roster_abc "A" None e w1 = Returned (Some from_c) w1'
          /\ execute_turn roster_abc None e w1
             = Returned (("RESPONSE from A: I received '" ^^ from_c
                          ^^ "' and my response is...") :: rs2) w2).
Proof.
  split.
  - intros self seed first rest e w Hm Hio Hinit.
    destruct (execute_turn_head self seed first rest e w Hm Hio Hinit)
      as (rs & w' & m & ms & H1 & H2 & H3 & H4).
    exists (response_for (disk w) seed 0 first), rs, w', m, ms.
    repeat split; assumption.
  - intros e w Hio Hw.
    pose proof (seeded_turn_abc e w Hio Hw) as H1.
    set (w1 := {| disk := after_seeded_turn e (clock_reads w);
                  clock_reads := 6 + clock_reads w;
                  io_ops := 16 + io_ops w |}) in *.
    assert (Hinit : initialized (disk w1)) by (split; discriminate).
    destruct (execute_turn_head roster_abc None "A" ["B"; "C"] e w1 eq_refl Hio Hinit)
      as (rs2 & w2 & _ & _ & H2 & _).
    exists [seeded_0; seeded_1; seeded_2], w1, seeded_2.
    eexists _, rs2, w2.
    split; [exact H1|]. split; [reflexivity|]. split.
    + rewrite (receive_message_ok roster_abc "A" None e w1 Hio). reflexivity.
    + exact H2.
Qed.

Lemma turn_restarts_at_first_agent_witness :
  exists response responses w',
    execute_turn roster_abc None slow_clock after_two_sends
    = Returned (response :: responses) w'.
Proof.
  destruct (proj1 turn_restarts_at_first_agent roster_abc None "A" ["B"; "C"]
              slow_clock after_two_sends eq_refl no_io_error_slow_clock
              initialized_after_two_sends)
    as (response & responses & w' & _ & _ & H & _).
  exists response, responses, w'. exact H.
Defined.

(** ** C10: an empty seed is no seed *)

Lemma turn_step_empty_seed self i e w :
  turn_step self (Some "") i e w = turn_step self None i e w.
Proof. destruct i; reflexivity. Qed.

Lemma turn_loop_empty_seed self range :
  forall responses e w,
    turn_loop self (Some "") range responses e w
    = turn_loop self None range responses e w.
Proof.
  induction range as [|i range IH]; intros responses e w; cbn [turn_loop];
    [reflexivity|].
  unfold bind. rewrite turn_step_empty_seed.
  destruct (turn_step self None i e w); [apply IH | reflexivity].
Qed.

(** C10. [execute_turn] with the empty string as seed is [execute_turn]
    without a seed, in every environment and on every store.  The first
    agent then answers what [receive_message] finds as its latest message,
    and with the no-prior-message placeholder when the lookup finds nothing
    or an empty content, as on an empty store; never with the seeded
    wrapper. *)
Theorem empty_seed_is_no_seed self :
  (forall e w, execute_turn self (Some "") e w = execute_turn self None e w)
  /\ (forall first rest e w,
        models self = first :: rest ->
        no_io_error e ->
        initialized (disk w) ->
        exists received w0 responses w',
          receive_message self first None e w = Returned received w0
          /\ execute_turn self (Some "") e w
             = Returned
                 ((if truthy_str received
                   then "RESPONSE from " ^^ first ^^ ": I received '"
                        ^^ match received with Some s => s | None => "" end
                        ^^ "' and my response is..."
                   else "RESPONSE from " ^^ first
                        ^^ ": No prior message received, starting conversation...")
                  :: responses) w'
          /\ (table_rows (model_interactions_tbl (disk w)) = [] ->
              received = None)).
Proof.
  split.
  - intros e w. apply turn_loop_empty_seed.
  - intros first rest e w Hm Hio Hinit.
    destruct (execute_turn_head self (Some "") first rest e w Hm Hio Hinit)
      as (rs & w' & _ & _ & H & _).
    destruct (initialized_tables _ Hinit) as (tm & ti & Em & Ei).
    rewrite (receive_message_ok self first None e w Hio). cbn.
    unfold response_for in H. cbn in H.
    unfold select_latest, joined in *. rewrite Em, Ei in *.
    eexists _, _, rs, w'. split; [reflexivity|]. split; [exact H|].
    cbn. intros Hrows. rewrite Hrows. reflexivity.
Qed.

Lemma empty_seed_is_no_seed_witness :
  exists responses w',
    execute_turn roster_abc (Some "") slow_clock after_setup
    = Returned
        ("RESPONSE from A: No prior message received, starting conversation..."
         :: responses) w'.
Proof.
  destruct (proj2 (empty_seed_is_no_seed roster_abc) "A" ["B"; "C"] slow_clock
              after_setup eq_refl no_io_error_slow_clock initialized_after_setup)
    as (received & w0 & responses & w' & _ & H & Hnone).
  rewrite (Hnone eq_refl) in H. exists responses, w'. exact H.
Defined.

(** ** C7: retrieval by id *)

Lemma filter_andb {A} (f g : A -> bool) l :
  filter (fun x => f x && g x) l = filter g (filter f l).
Proof.
  induction l as [|x l IH]; cbn; [reflexivity|].
  destruct (f x); cbn; [destruct (g x)|]; congruence.
Qed.

Lemma extends_refl db : extends db db.
Proof. exists [], []. now rewrite !app_nil_r. Qed.

Lemma rows_initialized db m mi :
  In m (table_rows (messages_tbl db)) ->
  In mi (table_rows (model_interactions_tbl db)) ->
  initialized db.
Proof.
  intros Hm Hmi. split; intros E; rewrite E in *; contradiction.
Qed.

(** In a consistent database, the query by id for a stored message and its
    hand-off yields that message when the receiver matches and nothing
    otherwise. *)
Lemma select_by_id_consistent db m mi model :
  consistent db ->
  In m (table_rows (messages_tbl db)) ->
  In mi (table_rows (model_interactions_tbl db)) ->
  model_interactions.message_id mi = messages.id m ->
  select_by_id (messages.id m) model db
  = inr (if String.eqb (model_interactions.model2_id mi) model
         then [(messages.message_content m, messages.model_id m)]
         else []).
Proof.
  intros Hc Hm Hmi Href.
  pose proof (consistent_pairs db m mi Hc Hm Hmi Href) as Hpair.
  pose proof (consistent_lengths db Hc) as Hlen.
  destruct (initialized_tables db (rows_initialized db m mi Hm Hmi))
    as (tm & ti & Em & Ei).
  unfold select_by_id, joined. rewrite Em, Ei.
  rewrite (consistent_join _ db tm ti Hc Em Ei).
  destruct Hc as (Hids & _ & _ & _ & Hrefs). rewrite Em, Ei in *. cbn in *.
  rewrite (filter_andb
             (fun r : messages.row * model_interactions.row =>
                (model_interactions.message_id (snd r) =? messages.id m)%Z)
             (fun r => String.eqb (model_interactions.model2_id (snd r)) model)).
  rewrite <- Href.
  assert (Hnd : NoDup (map (fun r : messages.row * model_interactions.row =>
                              model_interactions.message_id (snd r))
                         (combine (rows tm) (rows ti)))).
  { rewrite <- (map_map snd model_interactions.message_id).
    rewrite map_snd_combine by congruence.
    rewrite Hrefs, Hids. apply upto_NoDup. }
  pose proof (filter_unique _ _ (m, mi) Hnd Hpair) as F. cbn [snd] in F.
  rewrite F. cbn.
  destruct (String.eqb (model_interactions.model2_id mi) model); reflexivity.
Qed.

(** C7. An id returned by [send_message] for receiver R retrieves, in the
    state the call left and in every later state that still holds the rows,
    the content that was sent when [receive_message] is asked with that id
    and R, and nothing (no error) when asked with another receiver. *)
Theorem receive_message_by_id self s R c ty e w id w1 :
  no_io_error e ->
  reachable w ->
  send_message self s R c ty e w = Returned id w1 ->
  forall w2,
    reachable w2 ->
    extends (disk w1) (disk w2) ->
    (exists w3, receive_message self R (Some id) e w2 = Returned (Some c) w3)
    /\ (forall R', R' <> R ->
          exists w3, receive_message self R' (Some id) e w2 = Returned None w3).
Proof.
  intros Hio Hr Hsend w2 Hr2 (ms & mis & Hms & Hmis).
  pose proof (send_message_atomic self s R c ty e w) as Hat.
  rewrite Hsend in Hat. destruct Hat as (Hins & _).
  destruct (both_inserts_rows _ _ _ _ _ _ _ _ _ Hins)
    as (m & mi & Hm & Hmi & _ & Hid & Hsender & Hcontent & _ & _ & Hto & Href).
  pose proof (reachable_consistent w2 Hr2) as Hc2.
  assert (Hin : In m (table_rows (messages_tbl (disk w2)))).
  { rewrite Hms, Hm. apply in_or_app. left. apply in_or_app. right. now left. }
  assert (Hini : In mi (table_rows (model_interactions_tbl (disk w2)))).
  { rewrite Hmis, Hmi. apply in_or_app. left. apply in_or_app. right. now left. }
  assert (Hpos : (id =? 0)%Z = false).
  { apply Z.eqb_neq. destruct Hc2 as (Hids & _).
    assert (In id (upto (length (table_rows (messages_tbl (disk w2)))))) as Hu
        by (rewrite <- Hids, <- Hid; apply in_map, Hin).
    apply in_upto in Hu. lia. }
  assert (Hq : forall R',
             select_by_id id R' (disk w2)
             = inr (if String.eqb R R' then [(c, s)] else [])).
  { intros R'. rewrite <- Hid, <- Hto, <- Hcontent, <- Hsender.
    apply select_by_id_consistent; try assumption. congruence. }
  split.
  - rewrite (receive_message_ok self R (Some id) e w2 Hio). cbn.
    rewrite Hpos. cbn. rewrite Hq, String.eqb_refl. cbn. eauto.
  - intros R' Hne.
    rewrite (receive_message_ok self R' (Some id) e w2 Hio). cbn.
    rewrite Hpos. cbn. rewrite Hq.
    destruct (String.eqb_spec R R') as [E|_]; [congruence|]. cbn. eauto.
Qed.

Lemma extends_after_two_sends :
  extends (disk after_first_send) (disk after_two_sends).
Proof.
  exists (skipn 1 (table_rows (messages_tbl (disk after_two_sends)))),
         (skipn 1 (table_rows (model_interactions_tbl (disk after_two_sends)))).
  split; reflexivity.
Defined.

Lemma receive_message_by_id_witness :
  (exists w3,
      receive_message roster_abc "B" (Some 1%Z) slow_clock after_two_sends
      = Returned (Some "first") w3)
  /\ (exists w3,
         receive_message roster_abc "C" (Some 1%Z) slow_clock after_two_sends
         = Returned None w3).
Proof.
  destruct (receive_message_by_id roster_abc "A" "B" "first" "text" slow_clock
              after_setup 1%Z after_first_send no_io_error_slow_clock
              reachable_after_setup eq_refl after_two_sends
              reachable_after_two_sends extends_after_two_sends) as [H1 H2].
  split; [exact H1 | apply H2; discriminate].
Defined.

(** ** C2: the latest message for a receiver *)

Lemma StronglySorted_filter {A} (R : A -> A -> Prop) (f : A -> bool) l :
  StronglySorted R l -> StronglySorted R (filter f l).
Proof.
  induction 1 as [|x l _ IH Hx]; cbn; [constructor|].
  destruct (f x); [|exact IH].
  constructor; [exact IH|].
  rewrite Forall_forall in *. intros y Hy. apply Hx.
  apply filter_In in Hy. tauto.
Qed.

(** What the query for the latest message yields in a reachable state:
    nothing when no hand-off names the receiver; otherwise the content of a
    message handed to the receiver whose timestamp no other such message
    exceeds, and, when several share that timestamp, the one with the
    smallest id. *)
Lemma receive_message_latest self R e w :
  no_io_error e ->
  reachable w ->
  initialized (disk w) ->
  let ms := table_rows (messages_tbl (disk w)) in
  let mis := table_rows (model_interactions_tbl (disk w)) in
  exists w',
    (receive_message self R None e w = Returned None w'
     /\ forall mi, In mi mis -> model_interactions.model2_id mi <> R)
    \/ (exists m mi,
           receive_message self R None e w
           = Returned (Some (messages.message_content m)) w'
           /\ In m ms /\ In mi mis
           /\ model_interactions.message_id mi = messages.id m
           /\ model_interactions.model2_id mi = R
           /\ forall m' mi',
                In m' ms -> In mi' mis ->
                model_interactions.message_id mi' = messages.id m' ->
                model_interactions.model2_id mi' = R ->
                (messages.timestamp m' < messages.timestamp m
                 \/ (messages.timestamp m' = messages.timestamp m
                     /\ messages.id m <= messages.id m'))%Z).
Proof.
  intros Hio Hr Hinit ms mis.
  pose proof (reachable_consistent w Hr) as Hc.
  pose proof (consistent_lengths _ Hc) as Hlen.
  destruct (initialized_tables _ Hinit) as (tm & ti & Em & Ei).
  rewrite (receive_message_ok self R None e w Hio). cbn.
  unfold select_latest, joined. rewrite Em, Ei.
  rewrite (consistent_join _ (disk w) tm ti Hc Em Ei).
  set (p := fun r : messages.row * model_interactions.row =>
              String.eqb (model_interactions.model2_id (snd r)) R).
  set (L := filter p (combine (rows tm) (rows ti))).
  set (key := fun r : messages.row * model_interactions.row =>
                messages.timestamp (fst r)).
  set (rank := fun r : messages.row * model_interactions.row =>
                 messages.id (fst r)).
  assert (Hrows : ms = rows tm /\ mis = rows ti)
    by (subst ms mis; rewrite Em, Ei; split; reflexivity).
  destruct Hrows as [Hms Hmis].
  assert (Href : map model_interactions.message_id mis = map messages.id ms)
    by (destruct Hc as (_ & _ & _ & _ & H); exact H).
  assert (HL : StronglySorted (fun a b => (rank a < rank b)%Z) L).
  { apply StronglySorted_filter.
    apply StronglySorted_map_inv with (f := rank) (R := Z.lt).
    unfold rank. rewrite <- (map_map fst messages.id), map_fst_combine
      by (rewrite <- Hms, <- Hmis; symmetry; exact Hlen).
    destruct Hc as (Hids & _). rewrite Em in Hids. cbn in Hids.
    rewrite Hids. apply upto_sorted. }
  pose proof (order_by_desc_sorted key rank L HL) as Hsorted.
  pose proof (order_by_desc_perm key L) as Hperm.
  assert (HinL : forall m' mi',
             In m' ms -> In mi' mis ->
             model_interactions.message_id mi' = messages.id m' ->
             model_interactions.model2_id mi' = R ->
             In (m', mi') (order_by_desc key L)).
  { intros m' mi' Hm' Hmi' Href' HR.
    eapply Permutation_in; [symmetry; exact Hperm|].
    apply filter_In. split.
    - pose proof (consistent_pairs (disk w) m' mi' Hc Hm' Hmi' Href') as Hp.
      rewrite Em, Ei in Hp. exact Hp.
    - unfold p. cbn. rewrite HR. apply String.eqb_refl. }
  eexists.
  destruct (order_by_desc key L) as [|[m mi] rest] eqn:Esort; cbn.
  - left. split; [reflexivity|].
    intros mi Hmi HR.
    destruct (in_combine_exists_l ms mis mi (eq_sym Hlen) Hmi) as (m & Hpair).
    apply (HinL m mi); try assumption.
    + eapply in_combine_l, Hpair.
    + exact (combine_map_eq _ _ _ _ _ _ Href Hpair).
  - right. exists m, mi.
    assert (Hhd : In (m, mi) L)
      by (eapply Permutation_in; [exact Hperm | now left]).
    apply filter_In in Hhd. destruct Hhd as [Hpair Hp].
    unfold p in Hp. cbn in Hp. apply String.eqb_eq in Hp.
    rewrite <- Hms, <- Hmis in Hpair.
    split; [reflexivity|].
    split; [eapply in_combine_l, Hpair|].
    split; [eapply in_combine_r, Hpair|].
    split; [exact (combine_map_eq _ _ _ _ _ _ Href Hpair)|].
    split; [exact Hp|].
    intros m' mi' Hm' Hmi' Href' HR.
    specialize (HinL m' mi' Hm' Hmi' Href' HR).
    inversion Hsorted as [|? ? _ Hall]; subst.
    destruct HinL as [E|Hin].
    + injection E as <- <-. right. split; [reflexivity | lia].
    + rewrite Forall_forall in Hall. specialize (Hall _ Hin).
      unfold descending, key, rank in Hall. cbn in Hall. lia.
Qed.

Lemma reachable_send self s r c ty e w id w' :
  reachable w -> send_message self s r c ty e w = Returned id w' -> reachable w'.
Proof.
  intros Hr H.
  replace w' with (final (run_operation self (Send s r c ty) e w)).
  - apply reachable_step, Hr.
  - cbn. unfold bind. rewrite H. reflexivity.
Qed.

(** When the clock moved between two sends to the same receiver, and no
    stored message carries a later timestamp than the first of them, the
    lookup returns the second. *)
Lemma receive_message_fresh self e w s1 s2 R c1 c2 ty1 ty2 id1 w1 id2 w2 :
  no_io_error e ->
  reachable w ->
  (forall m, In m (table_rows (messages_tbl (disk w))) ->
             (messages.timestamp m <= CURRENT_TIMESTAMP e (clock_reads w))%Z) ->
  (CURRENT_TIMESTAMP e (clock_reads w)
   < CURRENT_TIMESTAMP e (2 + clock_reads w))%Z ->
  send_message self s1 R c1 ty1 e w = Returned id1 w1 ->
  send_message self s2 R c2 ty2 e w1 = Returned id2 w2 ->
  exists w3, receive_message self R None e w2 = Returned (Some c2) w3.
Proof.
  intros Hio Hr Hpast Htick H1 H2.
  pose proof (reachable_send _ _ _ _ _ _ _ _ _ Hr H1) as Hr1.
  pose proof (reachable_send _ _ _ _ _ _ _ _ _ Hr1 H2) as Hr2.
  pose proof (send_message_atomic self s1 R c1 ty1 e w) as A1.
  rewrite H1 in A1. destruct A1 as (I1 & Hreads1 & _).
  pose proof (send_message_atomic self s2 R c2 ty2 e w1) as A2.
  rewrite H2 in A2. destruct A2 as (I2 & _).
  destruct (both_inserts_rows _ _ _ _ _ _ _ _ _ I1)
    as (m1 & mi1 & Hm1 & Hmi1 & _ & _ & _ & _ & Ht1 & _).
  destruct (both_inserts_rows _ _ _ _ _ _ _ _ _ I2)
    as (m2 & mi2 & Hm2 & Hmi2 & Hinit2 & Hid2 & _ & Hc2 & Ht2 & _ & Hto2 & Href2).
  rewrite Hreads1 in Ht2. rewrite Hm1 in Hm2. rewrite Hmi1 in Hmi2.
  destruct (receive_message_latest self R e w2 Hio Hr2 Hinit2)
    as (w3 & [[_ Hnone]|(m & mi & Hrun & Hm & _ & _ & _ & Hmax)]).
  - exfalso. apply (Hnone mi2); [|exact Hto2].
    rewrite Hmi2. apply in_or_app. right. now left.
  - exists w3. rewrite Hrun. do 2 f_equal. rewrite <- Hc2.
    assert (Hin2 : In m2 (table_rows (messages_tbl (disk w2))))
      by (rewrite Hm2; apply in_or_app; right; now left).
    assert (Hini2 : In mi2 (table_rows (model_interactions_tbl (disk w2))))
      by (rewrite Hmi2; apply in_or_app; right; now left).
    specialize (Hmax m2 mi2 Hin2 Hini2 (eq_trans Href2 (eq_sym Hid2)) Hto2).
    rewrite Hm2 in Hm. apply in_app_or in Hm. destruct Hm as [Hm|[<-|[]]];
      [|reflexivity].
    exfalso. apply in_app_or in Hm. destruct Hm as [Hm|[<-|[]]].
    + specialize (Hpast m Hm). cbn in Htick. lia.
    + cbn in Htick. lia.
Qed.

(** C2, at the input where the code departs from the specification: two
    messages handed to "B" within the same clock second.  Both carry the
    greatest timestamp; the specification names the one with the greatest
    id, "second", and [receive_message] returns the one with the smallest
    id, "first". *)
Theorem latest_tie_returns_oldest :
  exists m1 m2 mi1 mi2 w',
    table_rows (messages_tbl (disk after_two_sends)) = [m1; m2]
    /\ table_rows (model_interactions_tbl (disk after_two_sends)) = [mi1; mi2]
    /\ model_interactions.model2_id mi1 = "B"
    /\ model_interactions.model2_id mi2 = "B"
    /\ model_interactions.message_id mi1 = messages.id m1
    /\ model_interactions.message_id mi2 = messages.id m2
    /\ messages.timestamp m1 = messages.timestamp m2
    /\ (messages.id m1 < messages.id m2)%Z
    /\ messages.message_content m1 = "first"
    /\ messages.message_content m2 = "second"
    /\ receive_message roster_abc "B" None slow_clock after_two_sends
       = Returned (Some "first") w'.
Proof.
  eexists _, _, _, _, _.
  split; [reflexivity|]. split; [reflexivity|]. cbn.
  repeat split.
Qed.

(** * Further properties of the code *)

(** ** Message ids *)

(** X1. In a reachable state a successful [send_message] returns the number
    of stored messages plus one, and stores exactly one more message; a
    call that raised has used up no id, so the next successful call returns
    that same number. *)
Theorem send_message_ids_count self s r c ty e w :
  reachable w ->
  let n := length (table_rows (messages_tbl (disk w))) in
  (forall id w',
      send_message self s r c ty e w = Returned id w' ->
      id = Z.of_nat (S n)
      /\ length (table_rows (messages_tbl (disk w'))) = S n)
  /\ (forall x w1 self' s' r' c' ty' e' id w2,
        send_message self s r c ty e w = Raised x w1 ->
        send_message self' s' r' c' ty' e' w1 = Returned id w2 ->
        id = Z.of_nat (S n)).
Proof.
  intros Hr n.
  assert (Hgen : forall self s r c ty e w id w',
             consistent (disk w) ->
             send_message self s r c ty e w = Returned id w' ->
             id = Z.of_nat (S (length (table_rows (messages_tbl (disk w)))))
             /\ length (table_rows (messages_tbl (disk w')))
                = S (length (table_rows (messages_tbl (disk w))))).
  { clear. intros self s r c ty e w id w' Hc Hsend.
    pose proof (send_message_atomic self s r c ty e w) as Hat.
    rewrite Hsend in Hat. destruct Hat as (Hins & _).
    destruct (both_inserts_inr _ _ _ _ _ _ _ _ _ Hins)
      as (tm & ti & Em & Ei & Hid & Hdb).
    destruct Hc as (Hids & Hseq & _). rewrite Em in *. cbn in *.
    rewrite Hdb. cbn. rewrite length_app, Nat.add_1_r.
    split; [|reflexivity].
    rewrite Hid. apply next_rowid_counted; assumption. }
  pose proof (reachable_consistent w Hr) as Hc.
  split.
  - intros id w' Hsend. exact (Hgen _ _ _ _ _ _ _ _ _ Hc Hsend).
  - intros x w1 self' s' r' c' ty' e' id w2 Hfail Hsend.
    pose proof (send_message_atomic self s r c ty e w) as Hat.
    rewrite Hfail in Hat.
    assert (Hc1 : consistent (disk w1)) by (rewrite Hat; exact Hc).
    destruct (Hgen _ _ _ _ _ _ _ _ _ Hc1 Hsend) as [Hid _].
    subst n. rewrite <- Hat. exact Hid.
Qed.

Lemma send_message_ids_count_witness :
  exists w',
    send_message roster_abc "B" "C" "third" "text" slow_clock after_two_sends
    = Returned 3%Z w'
    /\ length (table_rows (messages_tbl (disk w'))) = 3.
Proof.
  eexists. split; [reflexivity|].
  exact (proj2 (proj1 (send_message_ids_count roster_abc "B" "C" "third" "text"
                         slow_clock after_two_sends reachable_after_two_sends)
                  3%Z _ eq_refl)).
Defined.

(** ** The sender is recorded twice, and the same *)

Lemma combine_map_agree {A B C} (f : A -> C) (g : B -> C) l l' a b :
  map g l' = map f l -> In (a, b) (combine l l') -> g b = f a.
Proof.
  revert l'. induction l as [|a' l IH]; intros [|b' l'] Hmap Hin; cbn in *;
    try tauto; try discriminate.
  injection Hmap as Hhd Hmap.
  destruct Hin as [E|Hin]; [injection E as <- <-; exact Hhd | eauto].
Qed.

(** X2. In every reachable state a hand-off names as its sender the sender
    of the message it refers to: [model_interactions.model1_id] and
    [messages.model_id] never disagree. *)
Theorem handoff_sender_is_message_sender w :
  reachable w ->
  forall m mi,
    In m (table_rows (messages_tbl (disk w))) ->
    In mi (table_rows (model_interactions_tbl (disk w))) ->
    model_interactions.message_id mi = messages.id m ->
    model_interactions.model1_id mi = messages.model_id m.
Proof.
  intros Hr.
  set (I := fun db =>
              map model_interactions.model1_id
                  (table_rows (model_interactions_tbl db))
              = map messages.model_id (table_rows (messages_tbl db))).
  assert (HI : I (disk w)).
  { induction Hr as [reads ops|w self op e _ IH]; [reflexivity|].
    apply (maintains_run_operation I); try assumption.
    - intros s r c ty t1 t2 db db' id Hdb Hins. unfold I in *.
      destruct (both_inserts_rows _ _ _ _ _ _ _ _ _ Hins)
        as (m & mi & Hm & Hmi & _ & _ & Hs & _ & _ & Hs1 & _).
      rewrite Hm, Hmi, !map_app, Hdb. cbn. congruence.
    - intros db db' (Hm & _ & Hi & _) Hdb. unfold I in *.
      rewrite Hm, Hi. exact Hdb.
    - reflexivity. }
  intros m mi Hm Hmi Href.
  pose proof (consistent_pairs (disk w) m mi (reachable_consistent w Hr)
                Hm Hmi Href) as Hpair.
  exact (combine_map_agree _ _ _ _ _ _ HI Hpair).
Qed.

Lemma handoff_sender_is_message_sender_witness :
  model_interactions.model1_id (model_interactions.Row 2 "C" "B" 2 0)
  = messages.model_id (messages.Row 2 "C" "text" "second" 0).
Proof.
  apply (handoff_sender_is_message_sender after_two_sends
           reachable_after_two_sends).
  - right. left. reflexivity.
  - right. left. reflexivity.
  - reflexivity.
Defined.

(** ** Only the reset removes rows *)

Lemma extends_trans db1 db2 db3 :
  extends db1 db2 -> extends db2 db3 -> extends db1 db3.
Proof.
  intros (ms & mis & Hm & Hi) (ms' & mis' & Hm' & Hi').
  exists (ms ++ ms'), (mis ++ mis'). rewrite Hm', Hi', Hm, Hi, <- !app_assoc.
  split; reflexivity.
Qed.

Lemma extends_inserts db0 s r c ty t1 t2 db db' id :
  extends db0 db -> both_inserts s r c ty t1 t2 db = inr (db', id) ->
  extends db0 db'.
Proof.
  intros H Hins. apply (extends_trans db0 db db' H).
  destruct (both_inserts_rows _ _ _ _ _ _ _ _ _ Hins) as (m & mi & Hm & Hmi & _).
  exists [m], [mi]. split; assumption.
Qed.

Lemma extends_content db0 db db' :
  same_content db db' -> extends db0 db -> extends db0 db'.
Proof.
  intros (Hm & _ & Hi & _) (ms & mis & H1 & H2).
  exists ms, mis. rewrite Hm, Hi. split; assumption.
Qed.

(** X3. Whatever the environment does, no operation other than the reset
    removes or changes a stored row: the file afterwards holds the rows it
    held, in place, and possibly more after them.  The two readers leave
    the file exactly as it was, whether they return or raise. *)
Theorem only_clear_removes_rows self op e w :
  op <> Clear ->
  extends (disk w) (disk (final (run_operation self op e w)))
  /\ match op with
     | Receive _ _ | History => disk (final (run_operation self op e w)) = disk w
     | _ => True
     end.
Proof.
  intros Hop.
  assert (Hret : forall {A} (m : M A),
             maintains (extends (disk w)) m ->
             maintains (extends (disk w)) (m ;; ret tt)).
  { intros A m Hm. apply maintains_bind; [exact Hm|].
    intros a. apply maintains_ret. }
  assert (Hro : forall {A} (m : M A) e w,
             disk (final (m e w)) = disk w ->
             disk (final ((m ;; ret tt) e w)) = disk w).
  { intros A m e0 w0 H. unfold bind. destruct (m e0 w0); exact H. }
  destruct op; cbn [run_operation]; try congruence.
  - split; [|exact Logic.I].
    apply (maintains_setup_database _ (extends_content (disk w))).
    apply extends_refl.
  - split; [|exact Logic.I].
    apply Hret; [|apply extends_refl].
    apply (maintains_send_message _ (extends_inserts (disk w))).
  - assert (E : disk (final ((receive_message self model message_id ;; ret tt)
                              e w)) = disk w)
      by (apply Hro, receive_message_disk).
    rewrite E. split; [apply extends_refl | reflexivity].
  - split; [|exact Logic.I].
    apply Hret; [|apply extends_refl].
    apply (maintains_execute_turn _ (extends_inserts (disk w))).
  - assert (E : disk (final ((get_all_messages self ;; ret tt) e w)) = disk w)
      by (apply Hro, get_all_messages_disk).
    rewrite E. split; [apply extends_refl | reflexivity].
Qed.

Lemma only_clear_removes_rows_witness :
  extends (disk after_two_sends)
    (disk (final (run_operation roster_abc (Turn (Some "hello")) failing_commit
                    after_two_sends))).
Proof.
  apply (only_clear_removes_rows roster_abc (Turn (Some "hello")) failing_commit
           after_two_sends).
  discriminate.
Defined.

(** ** A database without its tables *)

Lemma not_initialized_cases db :
  ~ initialized db ->
  messages_tbl db = None \/ model_interactions_tbl db = None.
Proof.
  intros H. destruct (messages_tbl db) eqn:Em; [|now left].
  destruct (model_interactions_tbl db) eqn:Ei; [|now right].
  exfalso. apply H. split; congruence.
Qed.

Lemma both_inserts_missing s r c ty t1 t2 db :
  ~ initialized db ->
  exists msg, both_inserts s r c ty t1 t2 db = inl (OperationalError msg).
Proof.
  intros H. unfold both_inserts, insert_message, insert_interaction.
  destruct (messages_tbl db) as [tm|] eqn:Em; [|eauto]. cbn.
  destruct (model_interactions_tbl db) as [ti|] eqn:Ei; [|eauto].
  exfalso. apply H. split; congruence.
Qed.

Lemma joined_missing db p :
  ~ initialized db -> exists msg, joined db p = inl (OperationalError msg).
Proof.
  intros H. unfold joined.
  destruct (messages_tbl db) as [tm|] eqn:Em; [|eauto].
  destruct (model_interactions_tbl db) as [ti|] eqn:Ei; [|eauto].
  exfalso. apply H. split; congruence.
Qed.

(** X4. When a table is missing (the file was removed or never set up) and
    storage itself does not fail, every method that touches the store
    raises [sqlite3.OperationalError] and writes nothing: [send_message],
    [receive_message] with or without an id, [get_all_messages], and
    [execute_turn] on a roster that is not empty. *)
Theorem missing_table_raises self e w :
  no_io_error e ->
  ~ initialized (disk w) ->
  (forall s r c ty,
      exists msg w', send_message self s r c ty e w
                     = Raised (OperationalError msg) w'
                     /\ disk w' = disk w)
  /\ (forall model mid,
        exists msg w', receive_message self model mid e w
                       = Raised (OperationalError msg) w'
                       /\ disk w' = disk w)
  /\ (exists msg w', get_all_messages self e w = Raised (OperationalError msg) w'
                     /\ disk w' = disk w)
  /\ (forall seed,
        models self <> [] ->
        exists msg w', execute_turn self seed e w
                       = Raised (OperationalError msg) w'
                       /\ disk w' = disk w).
Proof.
  intros Hio Hno.
  assert (Hsend : forall s r c ty,
             exists msg w', send_message self s r c ty e w
                            = Raised (OperationalError msg) w'
                            /\ disk w' = disk w).
  { intros s r c ty. rewrite (send_message_ok self s r c ty e w Hio).
    destruct (both_inserts_missing s r c ty
                (CURRENT_TIMESTAMP e (clock_reads w))
                (CURRENT_TIMESTAMP e (S (clock_reads w))) (disk w) Hno)
      as (msg & ->).
    eexists _, _. split; reflexivity. }
  assert (Hrecv : forall model mid,
             exists msg w', receive_message self model mid e w
                            = Raised (OperationalError msg) w'
                            /\ disk w' = disk w).
  { intros model mid. rewrite (receive_message_ok self model mid e w Hio). cbn.
    unfold select_by_id, select_latest.
    destruct (truthy_int mid);
      match goal with
      | |- context [joined (disk w) ?p] =>
          destruct (joined_missing (disk w) p Hno) as (msg & ->)
      end;
      eexists _, _; split; reflexivity. }
  split; [exact Hsend|]. split; [exact Hrecv|]. split.
  - rewrite (get_all_messages_ok self e w Hio). cbn. unfold select_all.
    destruct (joined_missing (disk w) (fun _ => true) Hno) as (msg & ->).
    eexists _, _. split; reflexivity.
  - intros seed Hmodels.
    destruct (models self) as [|first rest] eqn:Em; [congruence|].
    assert (Hr : (0 + 1) mod (length (models self)) < length (models self))
      by (apply Nat.mod_upper_bound; rewrite Em; cbn; lia).
    destruct (nth_error (models self) ((0 + 1) mod (length (models self))))
      as [receiver|] eqn:Er; [|apply nth_error_None in Er; lia].
    assert (Es : nth_error (models self) 0 = Some first) by now rewrite Em.
    unfold execute_turn. rewrite Em. cbn [length seq turn_loop].
    unfold bind at 1. unfold turn_step, index. rewrite Es, Er.
    unfold bind at 1 2 3. unfold ret at 1 2.
    destruct ((0 =? 0)%nat && truthy_str seed).
    + unfold ret at 1. unfold bind at 1.
      destruct (Hsend first receiver
                  ("INITIAL: " ^^ match seed with Some s => s | None => "" end)
                  "text") as (msg & w' & -> & Hd).
      eauto.
    + unfold bind at 1.
      destruct (Hrecv first None) as (msg & w' & -> & Hd). eauto.
Qed.

Lemma missing_table_raises_witness :
  exists msg w',
    execute_turn roster_abc (Some "hello") slow_clock no_file
    = Raised (OperationalError msg) w'
    /\ disk w' = disk no_file.
Proof.
  apply (missing_table_raises roster_abc slow_clock no_file
           no_io_error_slow_clock).
  - intros [H _]. apply H. reflexivity.
  - discriminate.
Defined.

(** ** Looking up an id that is not stored *)

(** X5. [receive_message] with the id 0 is [receive_message] without an id:
    0 is falsy, so the latest message is looked up.  With any other id of
    the signed 64-bit range that no stored message carries it returns
    [None], whatever the receiver, and raises nothing.  (An integer outside
    that range cannot be bound as a parameter of the query; such a call is
    outside what [receive_message] models.) *)
Theorem receive_message_unknown_id self model :
  (forall e w, receive_message self model (Some 0%Z) e w
               = receive_message self model None e w)
  /\ (forall e w id,
        no_io_error e ->
        reachable w ->
        initialized (disk w) ->
        (- 2 ^ 63 <= id < 2 ^ 63)%Z ->
        id <> 0%Z ->
        (forall m, In m (table_rows (messages_tbl (disk w))) ->
                   messages.id m <> id) ->
        exists w', receive_message self model (Some id) e w = Returned None w').
Proof.
  split; [reflexivity|].
  intros e w id Hio Hr Hinit _ Hid Hnew.
  pose proof (reachable_consistent w Hr) as Hc.
  destruct (initialized_tables _ Hinit) as (tm & ti & Em & Ei).
  rewrite (receive_message_ok self model (Some id) e w Hio). cbn.
  apply Z.eqb_neq in Hid. rewrite Hid. cbn.
  unfold select_by_id, joined. rewrite Em, Ei.
  rewrite (consistent_join _ (disk w) tm ti Hc Em Ei).
  rewrite filter_none; [cbn; eauto|].
  intros [m mi] Hin. cbn.
  destruct Hc as (_ & _ & _ & _ & Href). rewrite Em, Ei in *. cbn in *.
  pose proof (combine_map_eq _ _ _ _ _ _ Href Hin) as E.
  apply in_combine_l in Hin. specialize (Hnew m Hin).
  destruct (Z.eqb_spec (model_interactions.message_id mi) id); [congruence|].
  reflexivity.
Qed.

Lemma receive_message_unknown_id_witness :
  exists w',
    receive_message roster_abc "B" (Some 7%Z) slow_clock after_two_sends
    = Returned None w'.
Proof.
  apply (proj2 (receive_message_unknown_id roster_abc "B") slow_clock
           after_two_sends 7%Z no_io_error_slow_clock reachable_after_two_sends
           initialized_after_two_sends).
  - lia.
  - discriminate.
  - intros m [<-|[<-|[]]]; discriminate.
Defined.

(** ** The reset *)

Lemma respects_clear_database self : respects (clear_database self).
Proof. unfold clear_database, os_remove. respects_tac. Qed.

Lemma clear_database_ok self e w :
  no_io_error e ->
  clear_database self e w
  = Returned tt {| disk := fresh; clock_reads := clock_reads w;
                   io_ops := 4 + io_ops w |}.
Proof.
  intros H. rewrite (respects_clear_database self e (calm e) w (calm_eq e H)).
  reflexivity.
Qed.

(** X6. Without storage failures the reset of the command loop leaves a
    store that behaves as a new one, whatever it held before: the history
    is empty, no receiver has a latest message, and the next message sent
    gets the id 1 again. *)
Theorem clear_database_starts_over self e w :
  no_io_error e ->
  exists w',
    clear_database self e w = Returned tt w'
    /\ disk w' = fresh
    /\ (exists w'', get_all_messages self e w' = Returned [] w'')
    /\ (forall model,
          exists w'', receive_message self model None e w' = Returned None w'')
    /\ (forall s r c ty,
          exists w'', send_message self s r c ty e w' = Returned 1%Z w'').
Proof.
  intros Hio. rewrite (clear_database_ok self e w Hio).
  eexists. split; [reflexivity|]. split; [reflexivity|]. split; [|split].
  - rewrite get_all_messages_ok by assumption. cbn. eauto.
  - intros model. rewrite receive_message_ok by assumption. cbn. eauto.
  - intros s r c ty. rewrite send_message_ok by assumption. cbn. eauto.
Qed.

Lemma clear_database_starts_over_witness :
  exists w',
    clear_database roster_abc slow_clock after_two_sends = Returned tt w'
    /\ disk w' = fresh.
Proof.
  destruct (clear_database_starts_over roster_abc slow_clock after_two_sends
              no_io_error_slow_clock) as (w' & H1 & H2 & _).
  exists w'. split; assumption.
Defined.

(** ** What was sent shows in the history *)

Lemma order_by_asc_sorted_id {R} (key : R -> Z) l :
  StronglySorted (fun a b => (key a <= key b)%Z) l -> order_by_asc key l = l.
Proof.
  induction 1 as [|x l _ IH Hx]; cbn; [reflexivity|].
  fold (order_by_asc key l). rewrite IH.
  destruct l as [|y l']; cbn; [reflexivity|].
  inversion Hx as [|? ? Hxy _]; subst.
  destruct (Z.leb_spec (key x) (key y)); [reflexivity | lia].
Qed.

(** X7. In a reachable state, once [send_message] returned an id, the
    history that [get_all_messages] returns holds the row made of that id,
    the sender, the receiver, the content and the timestamp the clock gave,
    and is one row longer than the number of messages stored before. *)
Theorem sent_message_in_history self s r c ty e w id w' :
  no_io_error e ->
  reachable w ->
  send_message self s r c ty e w = Returned id w' ->
  exists history w'',
    get_all_messages self e w' = Returned history w''
    /\ In (id, s, r, c, CURRENT_TIMESTAMP e (clock_reads w)) history
    /\ length history = S (length (table_rows (messages_tbl (disk w)))).
Proof.
  intros Hio Hr Hsend.
  pose proof (reachable_send _ _ _ _ _ _ _ _ _ Hr Hsend) as Hr'.
  pose proof (reachable_consistent w' Hr') as Hc'.
  pose proof (send_message_atomic self s r c ty e w) as Hat.
  rewrite Hsend in Hat. destruct Hat as (Hins & _).
  destruct (both_inserts_rows _ _ _ _ _ _ _ _ _ Hins)
    as (m & mi & Hm & Hmi & Hinit' & Hid & Hs & Hcont & Ht & _ & Hto & Href).
  destruct (select_all_consistent (disk w') Hinit' Hc') as (history & Hsel & Hh & _).
  rewrite (get_all_messages_ok self e w' Hio), Hsel. cbn.
  eexists _, _. split; [reflexivity|]. subst history. split.
  - replace (id, s, r, c, CURRENT_TIMESTAMP e (clock_reads w))
      with (select_history (m, mi))
      by (unfold select_history; cbn; congruence).
    apply in_map.
    eapply Permutation_in; [symmetry; apply order_by_asc_perm|].
    apply consistent_pairs; try assumption.
    + rewrite Hm. apply in_or_app. right. now left.
    + rewrite Hmi. apply in_or_app. right. now left.
    + congruence.
  - rewrite length_map, (Permutation_length (order_by_asc_perm _ _)).
    rewrite length_combine, (consistent_lengths _ Hc'), Nat.min_id, Hm.
    rewrite length_app. cbn. lia.
Qed.

Lemma sent_message_in_history_witness :
  exists history w'',
    get_all_messages roster_abc slow_clock after_first_send
    = Returned history w''
    /\ In (1%Z, "A", "B", "first", 0%Z) history
    /\ length history = 1.
Proof.
  exact (sent_message_in_history roster_abc "A" "B" "first" "text" slow_clock
           after_setup 1%Z after_first_send no_io_error_slow_clock
           reachable_after_setup eq_refl).
Defined.

(** X8. In a reachable state whose stored timestamps never decrease from
    one message to the next, as with a clock that is not set back,
    [get_all_messages] lists the messages in the order they were sent: the
    ids of the history are 1, 2, ..., n. *)
Theorem history_in_sending_order self e w :
  no_io_error e ->
  reachable w ->
  initialized (disk w) ->
  StronglySorted Z.le
    (map messages.timestamp (table_rows (messages_tbl (disk w)))) ->
  exists history w',
    get_all_messages self e w = Returned history w'
    /\ map history_id history
       = map messages.id (table_rows (messages_tbl (disk w)))
    /\ map history_id history
       = upto (length (table_rows (messages_tbl (disk w)))).
Proof.
  intros Hio Hr Hinit Hts.
  pose proof (reachable_consistent w Hr) as Hc.
  pose proof (consistent_lengths _ Hc) as Hlen.
  destruct (select_all_consistent (disk w) Hinit Hc) as (history & Hsel & Hh & _).
  rewrite (get_all_messages_ok self e w Hio), Hsel. cbn.
  eexists _, _. split; [reflexivity|].
  assert (E : map history_id history
              = map messages.id (table_rows (messages_tbl (disk w)))).
  { subst history. rewrite order_by_asc_sorted_id.
    - rewrite map_map. cbn.
      rewrite <- (map_map fst messages.id), map_fst_combine by congruence.
      reflexivity.
    - apply StronglySorted_map_inv
        with (f := fun r : messages.row * model_interactions.row =>
                     messages.timestamp (fst r))
             (R := Z.le).
      rewrite <- (map_map fst messages.timestamp), map_fst_combine
        by congruence.
      exact Hts. }
  split; [exact E|]. rewrite E. destruct Hc as (Hids & _). exact Hids.
Qed.

Lemma history_in_sending_order_witness :
  exists history w',
    get_all_messages roster_abc slow_clock after_two_sends
    = Returned history w'
    /\ map history_id history = [1%Z; 2%Z].
Proof.
  destruct (history_in_sending_order roster_abc slow_clock after_two_sends
              no_io_error_slow_clock reachable_after_two_sends
              initialized_after_two_sends)
    as (history & w' & H1 & H2 & _).
  - cbn. repeat constructor; lia.
  - exists history, w'. split; [exact H1 | exact H2].
Defined.

(** ** A turn that is cut short *)

Lemma turn_step_cases self seed i e w :
  match turn_step self seed i e w with
  | Returned response w' =>
      exists sender receiver t1 t2 id,
        nth_error (models self) i = Some sender
        /\ both_inserts sender receiver response "text" t1 t2 (disk w)
           = inr (disk w', id)
  | Raised _ w' => disk w' = disk w
  end.
Proof.
  unfold turn_step, index, time_sleep.
  destruct (nth_error (models self) i) as [sender|]; [|reflexivity].
  destruct (nth_error (models self) ((i + 1) mod (length (models self))))
    as [receiver|]; [|reflexivity].
  unfold bind at 1 2 3. unfold ret at 1 2.
  destruct ((i =? 0)%nat && truthy_str seed).
  - unfold ret at 1. unfold bind.
    pose proof (send_message_atomic self sender receiver
                  ("INITIAL: " ^^ match seed with Some s => s | None => "" end)
                  "text" e w) as Hs.
    destruct (send_message self sender receiver _ "text" e w) as [id w'|x w'];
      cbn; [|exact Hs].
    destruct Hs as (Hs & _). eexists sender, receiver, _, _, id.
    split; [reflexivity | exact Hs].
  - unfold bind at 1.
    pose proof (receive_message_disk self sender None e w) as Hr.
    destruct (receive_message self sender None e w) as [received w0|x w0];
      cbn in Hr; [|exact Hr].
    destruct (truthy_str received); unfold ret at 1; unfold bind;
      match goal with
      | |- context [send_message self sender receiver ?c "text" e w0] =>
          pose proof (send_message_atomic self sender receiver c "text" e w0)
            as Hs;
          destruct (send_message self sender receiver c "text" e w0)
            as [id w'|x w']
      end; cbn;
      try (rewrite Hs; exact Hr);
      destruct Hs as (Hs & _); rewrite Hr in Hs;
      eexists sender, receiver, _, _, id; (split; [reflexivity | exact Hs]).
Qed.

Lemma turn_loop_cases self seed range :
  forall responses e w,
  exists ms mis,
    table_rows (messages_tbl (disk (final (turn_loop self seed range responses e w))))
    = table_rows (messages_tbl (disk w)) ++ ms
    /\ table_rows (model_interactions_tbl
                     (disk (final (turn_loop self seed range responses e w))))
       = table_rows (model_interactions_tbl (disk w)) ++ mis
    /\ length mis = length ms
    /\ length ms <= length range
    /\ map (fun m => Some (messages.model_id m)) ms
       = map (nth_error (models self)) (firstn (length ms) range)
    /\ map model_interactions.message_id mis = map messages.id ms
    /\ match turn_loop self seed range responses e w with
       | Returned rs _ =>
           rs = responses ++ map messages.message_content ms
           /\ length ms = length range
       | Raised _ _ => True
       end.
Proof.
  induction range as [|i range IH]; intros responses e w; cbn [turn_loop].
  - exists [], []. cbn. rewrite !app_nil_r. repeat split. lia.
  - unfold bind. pose proof (turn_step_cases self seed i e w) as Hstep.
    destruct (turn_step self seed i e w) as [r w1|x w1].
    + destruct Hstep as (sender & receiver & t1 & t2 & id & Hs & Hins).
      destruct (both_inserts_rows _ _ _ _ _ _ _ _ _ Hins)
        as (m & mi & Hm & Hmi & _ & Hid & Hsender & Hcontent & _ & _ & _ & Href).
      destruct (IH (responses ++ [r]) e w1)
        as (ms & mis & H1 & H2 & H3 & H4 & H5 & H6 & H7).
      exists (m :: ms), (mi :: mis).
      rewrite H1, H2, Hm, Hmi, <- !app_assoc. cbn.
      rewrite H3, H5, H6, Hs, Hsender, Href, Hid.
      repeat split; try lia.
      destruct (turn_loop self seed range (responses ++ [r]) e w1);
        [|exact Logic.I].
      destruct H7 as [-> ->]. rewrite <- app_assoc, Hcontent. split; reflexivity.
    + exists [], []. cbn. rewrite !app_nil_r, Hstep. repeat split. lia.
Qed.

Lemma firstn_seq_le start : forall k len,
  k <= len -> firstn k (seq start len) = seq start k.
Proof.
  intros k. revert start. induction k as [|k IH]; intros start [|len] Hk;
    cbn; try reflexivity; [lia|].
  f_equal. apply IH. lia.
Qed.

Lemma map_nth_error_firstn {A} (l : list A) :
  forall k, k <= length l ->
    map (nth_error l) (seq 0 k) = map Some (firstn k l).
Proof.
  induction l as [|x l IH]; intros [|k] Hk; cbn in *; try reflexivity; [lia|].
  f_equal. rewrite <- seq_shift, map_map. apply IH. lia.
Qed.

Lemma turn_loop_raised self seed range :
  forall responses e w x w',
    turn_loop self seed range responses e w = Raised x w' ->
    exists done i rest rs wk,
      range = done ++ i :: rest
      /\ turn_loop self seed done responses e w = Returned rs wk
      /\ turn_step self seed i e wk = Raised x w'.
Proof.
  induction range as [|i range IH]; intros responses e w x w';
    cbn [turn_loop]; [discriminate|].
  unfold bind. destruct (turn_step self seed i e w) as [r w1|y w1] eqn:Hstep.
  - intros Hrun.
    destruct (IH _ _ _ _ _ Hrun) as (done & i' & rest & rs & wk & -> & Hpre & Hfail).
    exists (i :: done), i', rest, rs, wk. cbn [turn_loop app]. unfold bind.
    rewrite Hstep. repeat split; assumption.
  - intros H. injection H as <- <-.
    exists [], i, range, responses, w. repeat split. exact Hstep.
Qed.

Lemma seq_split_at n done i rest :
  seq 0 n = done ++ i :: rest ->
  done = seq 0 (length done) /\ i = length done /\ length done < n.
Proof.
  intros H.
  assert (Hlen : length done < n).
  { assert (E : length (seq 0 n) = length (done ++ i :: rest))
      by now rewrite H.
    rewrite length_seq, length_app in E. cbn in E. lia. }
  split; [|split; [|exact Hlen]].
  - rewrite <- (firstn_seq_le 0 (length done) n) by lia.
    rewrite H, firstn_app, Nat.sub_diag, firstn_all. cbn.
    now rewrite app_nil_r.
  - assert (E : nth (length done) (seq 0 n) 0 = i)
      by (rewrite H, app_nth2, Nat.sub_diag by lia; reflexivity).
    rewrite seq_nth in E by exact Hlen. cbn in E. congruence.
Qed.

(** X9. Whatever the environment does, [execute_turn] only appends, one
    message with its hand-off per step, in roster order: what it leaves
    behind is the old rows followed by k new messages from the first k
    roster entries and their k hand-offs.  A turn that returns has
    completed all its steps and returns their contents.  A turn that
    raises keeps the steps it had completed: then k is the number of steps
    that returned before the failing one, the k new messages hold the
    responses of those steps, and the file is left exactly as the k-th
    completed step left it. *)
Theorem execute_turn_keeps_completed_steps self seed e w :
  exists ms mis,
    table_rows (messages_tbl (disk (final (execute_turn self seed e w))))
    = table_rows (messages_tbl (disk w)) ++ ms
    /\ table_rows (model_interactions_tbl
                     (disk (final (execute_turn self seed e w))))
       = table_rows (model_interactions_tbl (disk w)) ++ mis
    /\ length mis = length ms
    /\ map model_interactions.message_id mis = map messages.id ms
    /\ map messages.model_id ms = firstn (length ms) (models self)
    /\ match execute_turn self seed e w with
       | Returned responses _ =>
           responses = map messages.message_content ms
           /\ length ms = length (models self)
       | Raised x w' =>
           length ms < length (models self)
           /\ exists wk,
                turn_loop self seed (seq 0 (length ms)) [] e w
                = Returned (map messages.message_content ms) wk
                /\ turn_step self seed (length ms) e wk = Raised x w'
                /\ disk w' = disk wk
       end.
Proof.
  unfold execute_turn.
  destruct (turn_loop self seed (seq 0 (length (models self))) [] e w)
    as [responses w'|x w'] eqn:Hrun.
  - destruct (turn_loop_cases self seed (seq 0 (length (models self))) [] e w)
      as (ms & mis & H1 & H2 & H3 & H4 & H5 & H6 & H7).
    rewrite Hrun in H1, H2, H7. rewrite length_seq in H4, H7.
    exists ms, mis. cbn [final]. repeat split; try tauto.
    apply map_Some_inj.
    rewrite H5, firstn_seq_le by exact H4.
    apply map_nth_error_firstn. exact H4.
  - destruct (turn_loop_raised _ _ _ _ _ _ _ _ Hrun)
      as (done & i & rest & rs & wk & Hsplit & Hpre & Hfail).
    destruct (seq_split_at _ _ _ _ Hsplit) as (Hdone & -> & Hk).
    rewrite Hdone in Hpre.
    destruct (turn_loop_cases self seed (seq 0 (length done)) [] e w)
      as (ms & mis & H1 & H2 & H3 & H4 & H5 & H6 & H7).
    rewrite Hpre in H1, H2, H7. cbn [final] in H1, H2.
    destruct H7 as [Hrs Hlen]. rewrite length_seq in Hlen. cbn in Hrs.
    pose proof (turn_step_cases self seed (length done) e wk) as Hdisk.
    rewrite Hfail in Hdisk.
    exists ms, mis. cbn [final]. rewrite Hdisk.
    split; [exact H1|]. split; [exact H2|]. split; [exact H3|].
    split; [exact H6|]. split; [|split; [lia|]].
    + apply map_Some_inj.
      rewrite H5, Hlen, firstn_seq_le by lia.
      apply map_nth_error_firstn. lia.
    + exists wk. rewrite <- Hrs, Hlen. repeat split; assumption.
Qed.

(** At the input where the second step of a turn fails on its lookup: the
    message of the first step stays. *)
Example execute_turn_failing_second_step :
  exists w',
    execute_turn roster_abc (Some "hello") failing_lookup after_setup
    = Raised (OperationalError "disk I/O error") w'
    /\ map messages.message_content (table_rows (messages_tbl (disk w')))
       = ["INITIAL: hello"]
    /\ map (fun mi => (model_interactions.model1_id mi,
                       model_interactions.model2_id mi))
         (table_rows (model_interactions_tbl (disk w')))
       = [("A", "B")].
Proof. eexists. repeat split. Qed.

(** ** A turn as a relay *)

Lemma final_then_ret {A} (m : M A) e w :
  final ((m ;; ret tt) e w) = final (m e w).
Proof. unfold bind. destruct (m e w); reflexivity. Qed.

Lemma stays_reachable_ret {A} (a : A) : stays_reachable (ret a).
Proof. intros e w H. exact H. Qed.

Lemma stays_reachable_raise {A} (x : exn) : stays_reachable (@raise A x).
Proof. intros e w H. exact H. Qed.

Lemma stays_reachable_bind {A B} (m : M A) (f : A -> M B) :
  stays_reachable m -> (forall a, stays_reachable (f a)) ->
  stays_reachable (bind m f).
Proof.
  intros Hm Hf e w H. unfold bind. specialize (Hm e w H).
  destruct (m e w) as [a w'|x w']; cbn in *; [apply Hf; assumption | assumption].
Qed.

Lemma stays_reachable_send_message self s r c ty :
  stays_reachable (send_message self s r c ty).
Proof.
  intros e w H. rewrite <- final_then_ret.
  exact (reachable_step w self (Send s r c ty) e H).
Qed.

Lemma stays_reachable_receive_message self model mid :
  stays_reachable (receive_message self model mid).
Proof.
  intros e w H. rewrite <- final_then_ret.
  exact (reachable_step w self (Receive model mid) e H).
Qed.

Lemma stays_reachable_index l i : stays_reachable (index l i).
Proof.
  unfold index. destruct (nth_error l i);
    [apply stays_reachable_ret | apply stays_reachable_raise].
Qed.

Lemma stays_reachable_turn_step self seed i :
  stays_reachable (turn_step self seed i).
Proof.
  unfold turn_step, time_sleep.
  repeat first
    [ apply stays_reachable_ret
    | apply stays_reachable_index
    | apply stays_reachable_send_message
    | apply stays_reachable_receive_message
    | apply stays_reachable_bind; [ | intros ]
    | match goal with
      | |- stays_reachable (if ?b then _ else _) => destruct b
      end ].
Qed.

Lemma response_for_truthy db seed i sender :
  initialized db -> truthy_str (Some (response_for db seed i sender)) = true.
Proof.
  intros Hi. unfold response_for.
  destruct ((i =? 0)%nat && truthy_str seed); [reflexivity|].
  destruct (select_latest_initialized sender db Hi) as (rs & ->). cbn.
  destruct (truthy_str (option_map fst (fetchone rs))); reflexivity.
Qed.

Lemma NoDup_app_disjoint {A} (l l' : list A) x :
  NoDup (l ++ l') -> In x l -> In x l' -> False.
Proof.
  induction l as [|y l IH]; cbn; [tauto|].
  intros Hnd [->|Hin] Hin'; inversion Hnd as [|? ? Hy Hnd']; subst.
  - apply Hy. apply in_or_app. now right.
  - exact (IH Hnd' Hin Hin').
Qed.

(** One step after the first: when the store holds exactly one newest
    message for the agent, the agent answers that message. *)
Lemma relay_step self seed i e w agent receiver ml mil :
  no_io_error e ->
  reachable w ->
  initialized (disk w) ->
  (i =? 0)%nat = false ->
  nth_error (models self) i = Some agent ->
  nth_error (models self) ((i + 1) mod (length (models self))) = Some receiver ->
  In ml (table_rows (messages_tbl (disk w))) ->
  In mil (table_rows (model_interactions_tbl (disk w))) ->
  model_interactions.message_id mil = messages.id ml ->
  model_interactions.model2_id mil = agent ->
  truthy_str (Some (messages.message_content ml)) = true ->
  (forall m' mi',
      In m' (table_rows (messages_tbl (disk w))) ->
      In mi' (table_rows (model_interactions_tbl (disk w))) ->
      model_interactions.message_id mi' = messages.id m' ->
      model_interactions.model2_id mi' = agent ->
      m' = ml \/ (messages.timestamp m' < messages.timestamp ml)%Z) ->
  let response :=
    "RESPONSE from " ^^ agent ^^ ": I received '"
    ^^ messages.message_content ml ^^ "' and my response is..." in
  exists id w',
    turn_step self seed i e w = Returned response w'
    /\ both_inserts agent receiver response "text"
         (CURRENT_TIMESTAMP e (clock_reads w))
         (CURRENT_TIMESTAMP e (S (clock_reads w))) (disk w)
       = inr (disk w', id)
    /\ clock_reads w' = S (S (clock_reads w)).
Proof.
  intros Hio Hr Hinit Hi Es Er Hml Hmil Hrefl Hto Htruthy Huniq response.
  destruct (turn_step_ok self seed i e w agent receiver Hio Hinit Es Er)
    as (id & w' & Hstep & Hins & Hreads).
  assert (E : response_for (disk w) seed i agent = response).
  { unfold response_for. rewrite Hi. cbn [andb].
    destruct (select_latest_initialized agent (disk w) Hinit) as (rs & Ers).
    rewrite Ers.
    pose proof (receive_message_ok self agent None e w Hio) as Hok.
    cbn in Hok. rewrite Ers in Hok.
    destruct (receive_message_latest self agent e w Hio Hr Hinit)
      as (w0 & [[Hnone Hno]|(m & mi & Hsome & Hm & Hmi & Href & Hto' & Hmax)]).
    - exfalso. exact (Hno mil Hmil Hto).
    - rewrite Hok in Hsome. injection Hsome as Hrec _.
      destruct (Huniq m mi Hm Hmi Href Hto') as [->|Hlt].
      + cbn zeta. rewrite Hrec, Htruthy. reflexivity.
      + exfalso. pose proof (Hmax ml mil Hml Hmil Hrefl Hto). lia. }
  rewrite E in *. exists id, w'. repeat split; assumption.
Qed.

Lemma combine_three {A B} (l0 l1 : list A) (k0 k1 : list B) a b x y :
  length l0 = length k0 ->
  length l1 = length k1 ->
  In (x, y) (combine (l0 ++ l1 ++ [a]) (k0 ++ k1 ++ [b])) ->
  In (x, y) (combine l0 k0) \/ In (x, y) (combine l1 k1) \/ (x, y) = (a, b).
Proof.
  intros H0 H1 Hin.
  rewrite combine_app_same in Hin by exact H0.
  rewrite combine_app_same in Hin by exact H1.
  apply in_app_or in Hin. destruct Hin as [Hin|Hin]; [now left|].
  apply in_app_or in Hin. destruct Hin as [Hin|[Hin|[]]]; auto.
Qed.

Section Relay.
Variable self : ModelControlProtocol.
Variable seed : option string.
Variable e : env.
Variable rows0 : list messages.row.
Variable mis0 : list model_interactions.row.
Variable reads0 : nat.
Hypothesis Hio : no_io_error e.
Hypothesis Hnodup : NoDup (models self).
Hypothesis Hlen0 : length rows0 = length mis0.
Hypothesis Hclock :
  forall m k, In m rows0 -> reads0 <= k ->
              (messages.timestamp m < CURRENT_TIMESTAMP e k)%Z.

(** The rest of the turn, once the agents in [done] have spoken and the
    last of them left [ml] for the first of [agents]. *)
Lemma relay_loop agents :
  forall done acc w ms' mis' ml mil,
    models self = done ++ agents ->
    done <> [] ->
    reachable w ->
    initialized (disk w) ->
    table_rows (messages_tbl (disk w)) = rows0 ++ ms' ++ [ml] ->
    table_rows (model_interactions_tbl (disk w)) = mis0 ++ mis' ++ [mil] ->
    length ms' = length mis' ->
    Forall (fun mi => In (model_interactions.model2_id mi) done) mis' ->
    (forall a rest, agents = a :: rest -> model_interactions.model2_id mil = a) ->
    model_interactions.message_id mil = messages.id ml ->
    truthy_str (Some (messages.message_content ml)) = true ->
    (exists k, reads0 <= k /\ messages.timestamp ml = CURRENT_TIMESTAMP e k) ->
    reads0 <= clock_reads w ->
    exists w',
      turn_loop self seed (seq (length done) (length agents)) acc e w
      = Returned (acc ++ relay (messages.message_content ml) agents) w'.
Proof.
  induction agents as [|a rest IH];
    intros done acc w ms' mis' ml mil Hmodels Hdone Hr Hinit Hrows Hmis Hlen
           Hall Hnext Hrefl Htruthy (k0 & Hk0 & Hts) Hreads.
  - cbn. exists w. now rewrite app_nil_r.
  - cbn [length seq turn_loop relay].
    assert (HN : length (models self) = length done + S (length rest))
      by (rewrite Hmodels, length_app; reflexivity).
    assert (Hi : (length done =? 0)%nat = false).
    { apply Nat.eqb_neq. destruct done; [congruence | cbn; lia]. }
    assert (Es : nth_error (models self) (length done) = Some a).
    { rewrite Hmodels, nth_error_app2, Nat.sub_diag by lia. reflexivity. }
    assert (Hbound : (length done + 1) mod (length (models self))
                     < length (models self))
      by (apply Nat.mod_upper_bound; lia).
    destruct (nth_error (models self)
                ((length done + 1) mod (length (models self))))
      as [receiver|] eqn:Er; [|apply nth_error_None in Er; lia].
    assert (Hml : In ml (table_rows (messages_tbl (disk w)))).
    { rewrite Hrows. apply in_or_app. right. apply in_or_app. right. now left. }
    assert (Hmil : In mil (table_rows (model_interactions_tbl (disk w)))).
    { rewrite Hmis. apply in_or_app. right. apply in_or_app. right. now left. }
    assert (Huniq : forall m' mi',
               In m' (table_rows (messages_tbl (disk w))) ->
               In mi' (table_rows (model_interactions_tbl (disk w))) ->
               model_interactions.message_id mi' = messages.id m' ->
               model_interactions.model2_id mi' = a ->
               m' = ml \/ (messages.timestamp m' < messages.timestamp ml)%Z).
    { intros m' mi' Hm' Hmi' Href' Hto'.
      pose proof (consistent_pairs (disk w) m' mi' (reachable_consistent w Hr)
                    Hm' Hmi' Href') as Hpair.
      rewrite Hrows, Hmis in Hpair.
      destruct (combine_three _ _ _ _ _ _ _ _ Hlen0 Hlen Hpair)
        as [Hold|[Hmid|Hlast]].
      - right. rewrite Hts. apply Hclock; [|exact Hk0].
        eapply in_combine_l, Hold.
      - exfalso. apply in_combine_r in Hmid.
        rewrite Forall_forall in Hall. specialize (Hall mi' Hmid).
        rewrite Hto' in Hall. rewrite Hmodels in Hnodup.
        apply (NoDup_app_disjoint done (a :: rest) a Hnodup Hall). now left.
      - left. congruence. }
    destruct (relay_step self seed (length done) e w a receiver ml mil Hio Hr
                Hinit Hi Es Er Hml Hmil Hrefl (Hnext a rest eq_refl) Htruthy
                Huniq)
      as (id & w1 & Hstep & Hins & Hreads1).
    set (response := "RESPONSE from " ^^ a ^^ ": I received '"
                     ^^ messages.message_content ml
                     ^^ "' and my response is...") in *.
    destruct (both_inserts_rows _ _ _ _ _ _ _ _ _ Hins)
      as (m1 & mi1 & Hm1 & Hmi1 & Hinit1 & Hid1 & _ & Hcont1 & Ht1 & _
          & Hto1 & Href1).
    assert (Hr1 : reachable w1).
    { pose proof (stays_reachable_turn_step self seed (length done) e w Hr) as H.
      rewrite Hstep in H. exact H. }
    destruct (IH (done ++ [a]) (acc ++ [response]) w1 (ms' ++ [ml])
                (mis' ++ [mil]) m1 mi1) as (w' & Hrun).
    + rewrite <- app_assoc. exact Hmodels.
    + destruct done; discriminate.
    + exact Hr1.
    + exact Hinit1.
    + rewrite Hm1, Hrows, <- !app_assoc. reflexivity.
    + rewrite Hmi1, Hmis, <- !app_assoc. reflexivity.
    + rewrite !length_app. cbn. lia.
    + apply Forall_app. split.
      * eapply Forall_impl; [|exact Hall].
        intros mi Hin. apply in_or_app. now left.
      * constructor; [|constructor].
        rewrite (Hnext a rest eq_refl). apply in_or_app. right. now left.
    + intros a' rest' Hrest. rewrite Hto1.
      assert (E : (length done + 1) mod (length (models self))
                  = length done + 1)
        by (apply Nat.mod_small; rewrite HN, Hrest; cbn; lia).
      rewrite E, Hmodels, Hrest in Er.
      rewrite nth_error_app2 in Er by lia.
      replace (length done + 1 - length done) with 1 in Er by lia.
      cbn in Er. congruence.
    + congruence.
    + rewrite Hcont1. reflexivity.
    + exists (clock_reads w). split; [exact Hreads | exact Ht1].
    + lia.
    + exists w'. unfold bind. rewrite Hstep.
      rewrite length_app, Nat.add_1_r in Hrun. rewrite Hcont1 in Hrun.
      rewrite Hrun, <- app_assoc. reflexivity.
Qed.
End Relay.

(** X10. On a roster without duplicates, in a reachable state whose stored
    timestamps all lie before what the clock shows from now on, and without
    storage failures, a turn is a relay: the first agent answers the seed
    (or its own latest message), and every later agent answers exactly what
    the agent before it has just said. *)
Theorem execute_turn_is_a_relay self seed first rest e w :
  models self = first :: rest ->
  NoDup (models self) ->
  no_io_error e ->
  reachable w ->
  initialized (disk w) ->
  (forall m k,
      In m (table_rows (messages_tbl (disk w))) ->
      clock_reads w <= k ->
      (messages.timestamp m < CURRENT_TIMESTAMP e k)%Z) ->
  exists w',
    execute_turn self seed e w
    = Returned (response_for (disk w) seed 0 first
                :: relay (response_for (disk w) seed 0 first) rest) w'.
Proof.
  intros Hmodels Hnodup Hio Hr Hinit Hclock.
  assert (HN : length (models self) = S (length rest))
    by (rewrite Hmodels; reflexivity).
  assert (Es : nth_error (models self) 0 = Some first) by now rewrite Hmodels.
  assert (Hbound : (0 + 1) mod (length (models self)) < length (models self))
    by (apply Nat.mod_upper_bound; lia).
  destruct (nth_error (models self) ((0 + 1) mod (length (models self))))
    as [receiver|] eqn:Er; [|apply nth_error_None in Er; lia].
  destruct (turn_step_ok self seed 0 e w first receiver Hio Hinit Es Er)
    as (id & w1 & Hstep & Hins & Hreads1).
  set (r0 := response_for (disk w) seed 0 first) in *.
  destruct (both_inserts_rows _ _ _ _ _ _ _ _ _ Hins)
    as (m0 & mi0 & Hm0 & Hmi0 & Hinit1 & Hid0 & _ & Hcont0 & Ht0 & _
        & Hto0 & Href0).
  assert (Hr1 : reachable w1).
  { pose proof (stays_reachable_turn_step self seed 0 e w Hr) as H.
    rewrite Hstep in H. exact H. }
  destruct (relay_loop self seed e (table_rows (messages_tbl (disk w)))
              (table_rows (model_interactions_tbl (disk w))) (clock_reads w)
              Hio Hnodup
              (eq_sym (consistent_lengths _ (reachable_consistent w Hr)))
              (fun m k Hm Hk => Hclock m k Hm Hk)
              rest [first] [r0] w1 [] [] m0 mi0)
    as (w' & Hrun); try assumption.
  - discriminate.
  - reflexivity.
  - constructor.
  - intros a rest' Hrest. rewrite Hto0.
    assert (E : (0 + 1) mod (length (models self)) = 1)
      by (apply Nat.mod_small; rewrite HN, Hrest; cbn; lia).
    rewrite E, Hmodels, Hrest in Er. cbn in Er. congruence.
  - congruence.
  - rewrite Hcont0. apply response_for_truthy. exact Hinit.
  - exists (clock_reads w). split; [lia | exact Ht0].
  - lia.
  - exists w'. unfold execute_turn. rewrite HN. cbn [seq turn_loop].
    unfold bind. rewrite Hstep. cbn [app].
    rewrite Hcont0 in Hrun. cbn [length] in Hrun. exact Hrun.
Qed.

Lemma slow_clock_ahead m k :
  In m (table_rows (messages_tbl (disk after_two_sends))) ->
  clock_reads after_two_sends <= k ->
  (messages.timestamp m < CURRENT_TIMESTAMP slow_clock k)%Z.
Proof.
  intros Hm Hk. cbn in Hk.
  assert (Hq : 1 <= k / 4) by (apply Nat.div_le_lower_bound; lia).
  change (CURRENT_TIMESTAMP slow_clock k) with (Z.of_nat (k / 4)).
  revert Hq. generalize (k / 4). intros q Hq.
  destruct Hm as [<-|[<-|[]]]; cbn; lia.
Defined.

Lemma NoDup_abc : NoDup (models roster_abc).
Proof.
  repeat constructor; cbn; intuition discriminate.
Defined.

Lemma execute_turn_is_a_relay_witness :
  exists w',
    execute_turn roster_abc None slow_clock after_two_sends
    = Returned
        ("RESPONSE from A: No prior message received, starting conversation..."
         :: relay
              "RESPONSE from A: No prior message received, starting conversation..."
              ["B"; "C"])
        w'.
Proof.
  exact (execute_turn_is_a_relay roster_abc None "A" ["B"; "C"] slow_clock
           after_two_sends eq_refl NoDup_abc no_io_error_slow_clock
           reachable_after_two_sends initialized_after_two_sends
           slow_clock_ahead).
Defined.

(** ** The command loop *)

Lemma ascii_lower_y c :
  String (ascii_lower c) "" = "y" -> String c "" = "y" \/ String c "" = "Y".
Proof.
  destruct c as [[] [] [] [] [] [] [] []]; vm_compute; intros H;
    try discriminate; auto.
Qed.

Lemma str_lower_y s : str_lower s = "y" -> s = "y" \/ s = "Y".
Proof.
  destruct s as [|c [|c' s']]; cbn; intros H; try discriminate.
  exact (ascii_lower_y c H).
Qed.

Lemma main_loop_extends mcp db0 :
  forall n stdin,
    length stdin <= n ->
    ~ In "y" stdin -> ~ In "Y" stdin ->
    maintains (extends db0) (main_loop mcp stdin).
Proof.
  induction n as [|n IH]; intros [|choice stdin] Hn Hy HY; cbn [main_loop];
    try apply maintains_ret; cbn in Hn; [lia|].
  assert (Hrest : maintains (extends db0) (main_loop mcp stdin)).
  { apply IH; [lia | |]; intros H; [apply Hy | apply HY]; now right. }
  assert (Hturn : forall seed,
             maintains (extends db0) (execute_turn mcp seed))
    by (intros seed; apply (maintains_execute_turn _ (extends_inserts db0))).
  destruct (String.eqb choice "1").
  { destruct stdin as [|initial_message stdin]; [apply maintains_ret|].
    apply maintains_bind; [apply Hturn|]. intros _.
    apply IH; [cbn in Hn; lia | |]; intros H; [apply Hy | apply HY];
      right; now right. }
  destruct (String.eqb choice "2").
  { apply maintains_bind; [apply Hturn | intros _; exact Hrest]. }
  destruct (String.eqb choice "3").
  { apply maintains_bind; [|intros _; exact Hrest].
    apply maintains_readonly, get_all_messages_disk. }
  destruct (String.eqb choice "4").
  { destruct stdin as [|confirm stdin]; [apply maintains_ret|].
    destruct (String.eqb_spec (str_lower confirm) "y") as [E|_].
    - exfalso. destruct (str_lower_y confirm E) as [-> | ->];
        [apply Hy | apply HY]; right; now left.
    - apply maintains_bind; [apply maintains_ret|]. intros _.
      apply IH; [cbn in Hn; lia | |]; intros H; [apply Hy | apply HY];
        right; now right. }
  destruct (String.eqb choice "5"); [apply maintains_ret | exact Hrest].
Qed.

(** X11. Whatever is typed and whatever the environment does, the command
    loop never removes or changes a stored row unless one of the input
    lines is a confirmation, "y" or "Y": the file it leaves holds every row
    it found, in place. *)
Theorem main_keeps_rows_without_confirmation stdin e w :
  ~ In "y" stdin -> ~ In "Y" stdin ->
  extends (disk w) (disk (final (main stdin e w))).
Proof.
  intros Hy HY. unfold main.
  apply (maintains_bind (extends (disk w))); [| |apply extends_refl].
  - unfold __init__. apply maintains_bind; [|intros; apply maintains_ret].
    apply (maintains_setup_database _ (extends_content (disk w))).
  - intros mcp. apply (main_loop_extends mcp (disk w) (length stdin));
      [lia | exact Hy | exact HY].
Qed.

Lemma main_keeps_rows_without_confirmation_witness :
  extends (disk after_two_sends)
    (disk (final (main ["3"; "4"; "n"; "1"; "hello"; "9"; "5"] slow_clock
                    after_two_sends))).
Proof.
  apply main_keeps_rows_without_confirmation;
    cbn; intuition discriminate.
Defined.

(** X12. In the command loop, choice 1 with an empty initial message is
    choice 2: starting a new conversation with nothing typed continues the
    stored one. *)
Theorem main_empty_start_continues stdin e w :
  main ("1" :: "" :: stdin) e w = main ("2" :: stdin) e w.
Proof.
  unfold main, bind.
  destruct (__init__ "mcp_database.db" e w) as [mcp w1|x w1]; [|reflexivity].
  cbn [main_loop String.eqb Ascii.eqb Bool.eqb]. cbn -[main_loop execute_turn].
  unfold bind. unfold execute_turn. rewrite turn_loop_empty_seed. reflexivity.
Qed.

(** ** The example script *)

Lemma execute_turn_appends self seed first rest e w :
  models self = first :: rest ->
  no_io_error e ->
  initialized (disk w) ->
  exists responses w' ms mis,
    execute_turn self seed e w = Returned responses w'
    /\ initialized (disk w')
    /\ table_rows (messages_tbl (disk w'))
       = table_rows (messages_tbl (disk w)) ++ ms
    /\ table_rows (model_interactions_tbl (disk w'))
       = table_rows (model_interactions_tbl (disk w)) ++ mis
    /\ map messages.model_id ms = models self
    /\ map (fun mi => Some (model_interactions.model2_id mi)) mis
       = map (fun i => nth_error (models self)
                         ((i + 1) mod (length (models self))))
             (seq 0 (length (models self)))
    /\ map model_interactions.message_id mis = map messages.id ms
    /\ hd_error (map messages.message_content ms)
       = Some (response_for (disk w) seed 0 first).
Proof.
  intros Hmodels Hio Hinit.
  assert (Hrange : Forall (fun i => i < length (models self))
                     (seq 0 (length (models self)))).
  { apply Forall_forall. intros i Hi. apply in_seq in Hi. lia. }
  destruct (turn_loop_ok self seed _ Hrange [] e w Hio Hinit)
    as (rs & w' & ms & mis & Hrun & Hinit' & Hms & Hmis & Hc & Hs & _ & H2 & H3).
  destruct (execute_turn_head self seed first rest e w Hmodels Hio Hinit)
    as (rs' & w'' & _ & _ & Hhead & _).
  unfold execute_turn in Hhead. rewrite Hrun in Hhead. cbn in Hhead.
  injection Hhead as Hrs _.
  rewrite map_nth_error_seq in Hs. apply map_Some_inj in Hs.
  exists rs, w', ms, mis. cbn in Hrun.
  repeat split; try assumption; try apply Hinit'.
  rewrite Hc, Hrs. reflexivity.
Qed.

(** X13. Without storage failures the example script returns, whatever the
    session file held before, and leaves what it held followed by nine new
    exchanges: the script does not start from a clean file.  The senders
    are Claude, Gemini, ChatGPT three times over, each handing to the next
    and ChatGPT to Claude, and the first new message is the seeded wrapper
    of the query written in the script. *)
Theorem simulate_appends_nine_exchanges e w :
  no_io_error e ->
  exists w' ms mis,
    simulate_model_interaction e w = Returned tt w'
    /\ table_rows (messages_tbl (disk w'))
       = table_rows (messages_tbl (disk w)) ++ ms
    /\ table_rows (model_interactions_tbl (disk w'))
       = table_rows (model_interactions_tbl (disk w)) ++ mis
    /\ map messages.model_id ms
       = ["Claude"; "Gemini"; "ChatGPT"; "Claude"; "Gemini"; "ChatGPT";
          "Claude"; "Gemini"; "ChatGPT"]
    /\ map model_interactions.model2_id mis
       = ["Gemini"; "ChatGPT"; "Claude"; "Gemini"; "ChatGPT"; "Claude";
          "Gemini"; "ChatGPT"; "Claude"]
    /\ map model_interactions.message_id mis = map messages.id ms
    /\ hd_error (map messages.message_content ms)
       = Some "INITIAL: Compare the approaches to solving climate change".
Proof.
  intros Hio. unfold simulate_model_interaction.
  destruct (init_initialized "example_session.db" e w Hio)
    as (mcp & w0 & Hinit & Hmodels & Hi0 & (Hm0 & _ & Hmi0 & _)).
  unfold bind at 1. rewrite Hinit.
  destruct (execute_turn_appends mcp
              (Some "Compare the approaches to solving climate change")
              "Claude" ["Gemini"; "ChatGPT"] e w0 Hmodels Hio Hi0)
    as (rs1 & w1 & ms1 & mis1 & R1 & Hi1 & M1 & I1 & S1 & T1 & F1 & C1).
  destruct (execute_turn_appends mcp None "Claude" ["Gemini"; "ChatGPT"] e w1
              Hmodels Hio Hi1)
    as (rs2 & w2 & ms2 & mis2 & R2 & Hi2 & M2 & I2 & S2 & T2 & F2 & _).
  destruct (execute_turn_appends mcp None "Claude" ["Gemini"; "ChatGPT"] e w2
              Hmodels Hio Hi2)
    as (rs3 & w3 & ms3 & mis3 & R3 & Hi3 & M3 & I3 & S3 & T3 & F3 & _).
  rewrite Hmodels in S1, S2, S3, T1, T2, T3.
  cbn in T1, T2, T3.
  apply (map_Some_inj model_interactions.model2_id mis1
           ["Gemini"; "ChatGPT"; "Claude"]) in T1.
  apply (map_Some_inj model_interactions.model2_id mis2
           ["Gemini"; "ChatGPT"; "Claude"]) in T2.
  apply (map_Some_inj model_interactions.model2_id mis3
           ["Gemini"; "ChatGPT"; "Claude"]) in T3.
  destruct (initialized_tables _ Hi3) as (tm & ti & Em & Ei).
  unfold bind. rewrite R1, R2, R3.
  rewrite (get_all_messages_ok mcp e w3 Hio). cbn.
  unfold select_all, joined. rewrite Em, Ei. cbn.
  exists {| disk := disk w3; clock_reads := clock_reads w3;
            io_ops := S (S (io_ops w3)) |},
         (ms1 ++ ms2 ++ ms3), (mis1 ++ mis2 ++ mis3).
  cbn. rewrite M3, M2, M1, I3, I2, I1, Hm0, Hmi0, <- !app_assoc.
  rewrite !map_app, S1, S2, S3, T1, T2, T3, F1, F2, F3.
  repeat split.
  destruct ms1 as [|m ms1]; [discriminate|]. exact C1.
Qed.

Lemma simulate_appends_nine_exchanges_witness :
  exists w',
    simulate_model_interaction slow_clock after_two_sends = Returned tt w'
    /\ length (table_rows (messages_tbl (disk w'))) = 11.
Proof.
  destruct (simulate_appends_nine_exchanges slow_clock after_two_sends
              no_io_error_slow_clock)
    as (w' & ms & mis & H1 & H2 & _ & H3 & _).
  exists w'. split; [exact H1|].
  rewrite H2, length_app, <- (length_map messages.model_id ms), H3.
  reflexivity.
Defined.

(** ** Sending and looking up *)

(** X14. In a reachable state whose stored timestamps all lie before the
    current clock reading, a message sent to a receiver is what
    [receive_message] returns for that receiver right afterwards. *)
Theorem send_then_receive_latest self s R c ty e w id w' :
  no_io_error e ->
  reachable w ->
  (forall m, In m (table_rows (messages_tbl (disk w))) ->
             (messages.timestamp m < CURRENT_TIMESTAMP e (clock_reads w))%Z) ->
  send_message self s R c ty e w = Returned id w' ->
  exists w'', receive_message self R None e w' = Returned (Some c) w''.
Proof.
  intros Hio Hr Hpast Hsend.
  pose proof (reachable_send _ _ _ _ _ _ _ _ _ Hr Hsend) as Hr'.
  pose proof (send_message_atomic self s R c ty e w) as Hat.
  rewrite Hsend in Hat. destruct Hat as (Hins & _).
  destruct (both_inserts_rows _ _ _ _ _ _ _ _ _ Hins)
    as (m1 & mi1 & Hm1 & Hmi1 & Hinit' & Hid & _ & Hc & Ht & _ & Hto & Href).
  assert (Hin : In m1 (table_rows (messages_tbl (disk w'))))
    by (rewrite Hm1; apply in_or_app; right; now left).
  assert (Hini : In mi1 (table_rows (model_interactions_tbl (disk w'))))
    by (rewrite Hmi1; apply in_or_app; right; now left).
  destruct (receive_message_latest self R e w' Hio Hr' Hinit')
    as (w'' & [[_ Hnone]|(m & mi & Hrun & Hm & _ & _ & _ & Hmax)]).
  - exfalso. exact (Hnone mi1 Hini Hto).
  - exists w''. rewrite Hrun. do 2 f_equal. rewrite <- Hc.
    specialize (Hmax m1 mi1 Hin Hini (eq_trans Href (eq_sym Hid)) Hto).
    rewrite Hm1 in Hm. apply in_app_or in Hm.
    destruct Hm as [Hm|[<-|[]]]; [|reflexivity].
    exfalso. specialize (Hpast m Hm). lia.
Qed.

Lemma send_then_receive_latest_witness :
  exists w'',
    receive_message roster_abc "B" None slow_clock
      (final (run_operation roster_abc (Send "A" "B" "third" "text") slow_clock
                after_two_sends))
    = Returned (Some "third") w''.
Proof.
  apply (send_then_receive_latest roster_abc "A" "B" "third" "text" slow_clock
           after_two_sends 3%Z _ no_io_error_slow_clock
           reachable_after_two_sends).
  - intros m [<-|[<-|[]]]; reflexivity.
  - reflexivity.
Defined.

(** X15. In a reachable state a message sent to one receiver does not
    change what [receive_message] returns as the latest message of any
    other receiver. *)
Theorem send_leaves_other_receivers self s R' c ty e w id w' R :
  no_io_error e ->
  reachable w ->
  send_message self s R' c ty e w = Returned id w' ->
  R <> R' ->
  exists latest w1 w2,
    receive_message self R None e w = Returned latest w1
    /\ receive_message self R None e w' = Returned latest w2.
Proof.
  intros Hio Hr Hsend Hne.
  pose proof (reachable_send _ _ _ _ _ _ _ _ _ Hr Hsend) as Hr'.
  pose proof (reachable_consistent w Hr) as Hc.
  pose proof (reachable_consistent w' Hr') as Hc'.
  pose proof (send_message_atomic self s R' c ty e w) as Hat.
  rewrite Hsend in Hat. destruct Hat as (Hins & _).
  destruct (both_inserts_inr _ _ _ _ _ _ _ _ _ Hins)
    as (tm & ti & Em & Ei & Hid & Hdb).
  rewrite !receive_message_ok by assumption. cbn.
  unfold select_latest, joined. rewrite Em, Ei, Hdb. cbn [messages_tbl
    model_interactions_tbl].
  rewrite (consistent_join _ (disk w) tm ti Hc Em Ei).
  rewrite Hdb in Hc'.
  rewrite (consistent_join _ _ _ _ Hc' eq_refl eq_refl). cbn [rows].
  rewrite combine_app_same, filter_app.
  - cbn. destruct (String.eqb_spec R' R) as [E|_]; [congruence|].
    rewrite app_nil_r. eexists _, _, _. split; reflexivity.
  - pose proof (consistent_lengths _ Hc) as Hlen. rewrite Em, Ei in Hlen.
    cbn in Hlen. congruence.
Qed.

Lemma send_leaves_other_receivers_witness :
  exists latest w1 w2,
    receive_message roster_abc "B" None slow_clock after_two_sends
    = Returned latest w1
    /\ receive_message roster_abc "B" None slow_clock
         (final (run_operation roster_abc (Send "B" "C" "third" "text")
                   slow_clock after_two_sends))
       = Returned latest w2.
Proof.
  apply (send_leaves_other_receivers roster_abc "B" "C" "third" "text"
           slow_clock after_two_sends 3%Z _ "B" no_io_error_slow_clock
           reachable_after_two_sends eq_refl).
  discriminate.
Defined.
